(** * VibeAnalyst: the report scoring and aggregation engine of DashAuditFinal.py

    A shallow embedding of the scoring functions, the Markdown loader and the
    list filter of the dashboard, with the properties stated of them.

    Conventions of the embedding.
    - A Python [str] is a [list ascii]; a character is an 8-bit code read as
      a Latin-1 code point.  Code points above U+00FF are outside the model.
    - A Python [float] or a JavaScript number is the exact rational [Q] it
      stands for: the scores are decimals with at most one fractional
      digit, and the error of binary floating point is outside the model.
    - A [Dict[str,int]] is a [gmap string nat] ([len] never is negative).
    - [re] patterns are terms of [regex], run by a backtracking matcher. *)

From Stdlib Require Import QArith Qminmax Qround Lqa Ascii String.
From stdpp Require Import gmap strings list fin_maps sorting.

Local Open Scope nat_scope.

(** ** Characters *)

Abbreviation chars := (list ascii).

Definition str (s : string) : chars := list_ascii_of_string s.

Definition code (c : ascii) : N := N_of_ascii c.

Definition in_range (lo hi : N) (c : ascii) : bool :=
  ((lo <=? code c) && (code c <=? hi))%N.

(** [str.isspace] and the class [\s] of a [str] pattern, on Latin-1. *)
Definition is_space (c : ascii) : bool :=
  in_range 9 13 c || in_range 28 32 c || in_range 133 133 c || in_range 160 160 c.

(** The class [\w] of a [str] pattern, on Latin-1: alphanumerics and [_]. *)
Definition is_word (c : ascii) : bool :=
  in_range 48 57 c || in_range 65 90 c || in_range 97 122 c || in_range 95 95 c
  || in_range 170 170 c || in_range 178 179 c || in_range 181 181 c
  || in_range 185 186 c || in_range 188 190 c
  || in_range 192 214 c || in_range 216 246 c || in_range 248 255 c.

(** Lower-casing ([str.lower], JS [toLowerCase]) on Latin-1. *)
Definition to_lower (c : ascii) : ascii :=
  if in_range 65 90 c || in_range 192 214 c || in_range 216 222 c
  then ascii_of_N (code c + 32) else c.

(** Upper-casing of an ASCII letter ([str.upper] on the grade letter). *)
Definition to_upper (c : ascii) : ascii :=
  if in_range 97 122 c then ascii_of_N (code c - 32) else c.

Definition lower (s : chars) : chars := map to_lower s.

(** A literal character of a pattern compiled with [(?i)]. *)
Definition ci_char (x : ascii) (c : ascii) : bool :=
  Ascii.eqb (to_lower c) (to_lower x).

(** A set [[...]] of a pattern compiled with [(?i)]. *)
Definition ci_set (xs : string) (c : ascii) : bool :=
  existsb (fun x => ci_char x c) (str xs).

Definition one_of (xs : string) (c : ascii) : bool :=
  existsb (Ascii.eqb c) (str xs).

Definition newline : ascii := ascii_of_N 10.

(** The class [.] without DOTALL. *)
Definition not_newline (c : ascii) : bool := negb (Ascii.eqb c newline).

(** ** Regular expressions: the fragment of [re] the program uses *)

Inductive regex : Type :=
| Eps
| Chr (p : ascii -> bool)
| Cat (r1 r2 : regex)
| Alt (r1 r2 : regex)
| Opt (r : regex)
| Star (p : ascii -> bool)
| Bound
| Bol
| Eol
| Group (n : nat) (r : regex).

(** A position of the matcher: the characters before it (nearest first),
    those after it, and the groups captured so far (latest first). *)
Record mstate : Type := MState {
  before : chars;
  after : chars;
  groups : list (nat * chars)
}.

Definition word_at (o : option ascii) : bool :=
  match o with Some c => is_word c | None => false end.

(** [\b]: exactly one of the two neighbours is a word character. *)
Definition at_boundary (s : mstate) : bool :=
  xorb (word_at (head (before s))) (word_at (head (after s))).

(** [^] under MULTILINE: start of the text or just after a newline. *)
Definition at_bol (s : mstate) : bool :=
  match before s with [] => true | c :: _ => Ascii.eqb c newline end.

(** [$] under MULTILINE: end of the text or just before a newline. *)
Definition at_eol (s : mstate) : bool :=
  match after s with [] => true | c :: _ => Ascii.eqb c newline end.

(** The text between two positions of one run. *)
Definition consumed (s s' : mstate) : chars :=
  take (length (after s) - length (after s')) (after s).

Definition set_group (n : nat) (s s' : mstate) : mstate :=
  MState (before s') (after s') ((n, consumed s s') :: groups s').

Fixpoint lookup_group (n : nat) (g : list (nat * chars)) : option chars :=
  match g with
  | [] => None
  | (i, t) :: g' => if Nat.eqb i n then Some t else lookup_group n g'
  end.

(** [m.group(n)]. *)
Definition group (n : nat) (s : mstate) : option chars :=
  lookup_group n (groups s).

Section Matcher.
Context {A : Type}.

(** Greedy [p*]: the longest run first, then shorter ones. *)
Fixpoint star_exec (p : ascii -> bool) (k : mstate -> option A)
    (b a : chars) (g : list (nat * chars)) : option A :=
  match a with
  | c :: a' =>
      if p c then
        match star_exec p k (c :: b) a' g with
        | Some x => Some x
        | None => k (MState b a g)
        end
      else k (MState b a g)
  | [] => k (MState b a g)
  end.

(** The backtracking matcher, in continuation-passing style: [k] is the
    rest of the pattern. Alternatives are tried in order. *)
Fixpoint exec (r : regex) (k : mstate -> option A) (s : mstate) : option A :=
  match r with
  | Eps => k s
  | Chr p =>
      match after s with
      | c :: a' => if p c then k (MState (c :: before s) a' (groups s)) else None
      | [] => None
      end
  | Cat r1 r2 => exec r1 (exec r2 k) s
  | Alt r1 r2 =>
      match exec r1 k s with
      | Some x => Some x
      | None => exec r2 k s
      end
  | Opt r1 =>
      match exec r1 k s with
      | Some x => Some x
      | None => k s
      end
  | Star p => star_exec p k (before s) (after s) (groups s)
  | Bound => if at_boundary s then k s else None
  | Bol => if at_bol s then k s else None
  | Eol => if at_eol s then k s else None
  | Group n r1 => exec r1 (fun s' => k (set_group n s s')) s
  end.
End Matcher.

(** [re.match] at one position. *)
Definition match_at (r : regex) (b a : chars) : option mstate :=
  exec r Some (MState b a []).

(** [re.search]: the leftmost position at which the pattern matches. *)
Fixpoint search_from (r : regex) (b a : chars) : option mstate :=
  match match_at r b a with
  | Some s => Some s
  | None =>
      match a with
      | [] => None
      | c :: a' => search_from r (c :: b) a'
      end
  end.

Definition re_search (r : regex) (t : chars) : option mstate :=
  search_from r [] t.

(** [re.findall] for a pattern without groups: the matched texts, left to
    right, without overlap. [skip] counts the characters of the latest
    match that are still to be stepped over. *)
Fixpoint findall_from (r : regex) (skip : nat) (b a : chars) : list chars :=
  match skip with
  | S n =>
      match a with
      | [] => []
      | c :: a' => findall_from r n (c :: b) a'
      end
  | O =>
      match match_at r b a with
      | Some s' =>
          let m := consumed (MState b a []) s' in
          m :: match a with
               | [] => []
               | c :: a' => findall_from r (length m - 1) (c :: b) a'
               end
      | None =>
          match a with
          | [] => []
          | c :: a' => findall_from r 0 (c :: b) a'
          end
      end
  end.

Definition re_findall (r : regex) (t : chars) : list chars :=
  findall_from r 0 [] t.

(** A literal word of a pattern compiled with [(?i)]. *)
Fixpoint lit_ci (w : chars) : regex :=
  match w with
  | [] => Eps
  | x :: w' => Cat (Chr (ci_char x)) (lit_ci w')
  end.

(** ** Numbers *)

Local Open Scope Q_scope.

(** Python's [min(a, b)] and [max(a, b)]: the first argument unless the
    second is strictly better. *)
Definition py_min (a b : Q) : Q :=
  match Qcompare b a with Lt => b | _ => a end.

Definition py_max (a b : Q) : Q :=
  match Qcompare b a with Gt => b | _ => a end.

(** Rounding to the nearest integer, ties to the even one. *)
Definition round_half_even (x : Q) : Z :=
  let f := Qfloor x in
  match Qcompare (x - inject_Z f) (1 # 2) with
  | Lt => f
  | Gt => (f + 1)%Z
  | Eq => if Z.even f then f else (f + 1)%Z
  end.

(** Python's [round(x, 1)]. *)
Definition py_round1 (x : Q) : Q :=
  inject_Z (round_half_even (x * 10)) / 10.

(** JavaScript's [Math.round]: ties go up. *)
Definition js_round (x : Q) : Z := Qfloor (x + (1 # 2)).

(** ** Scoring logic *)

(** [(?i)\b(self[-\s]?grade|grade)\s*[:\-]\s*([ABCDEF])\b] *)
Definition grade_re : regex :=
  Cat Bound
   (Cat (Group 1
          (Alt (Cat (lit_ci (str "self"))
                 (Cat (Opt (Chr (fun c => one_of "-" c || is_space c)))
                      (lit_ci (str "grade"))))
               (lit_ci (str "grade"))))
    (Cat (Star is_space)
     (Cat (Chr (one_of ":-"))
      (Cat (Star is_space)
       (Cat (Group 2 (Chr (ci_set "ABCDEF")))
            Bound))))).

(** The table [mapping] of [extract_self_grade_score]. *)
Definition mapping : list (chars * Q) :=
  [ (str "A", 95); (str "B", 85); (str "C", 75);
    (str "D", 60); (str "E", 40); (str "F", 40) ].

(** [d.get(key, default)] on a literal table. *)
Fixpoint get (d : list (chars * Q)) (key : chars) (default : Q) : Q :=
  match d with
  | [] => default
  | (k, v) :: d' => if decide (k = key) then v else get d' key default
  end.

(** [str.upper] of the one-letter group. *)
Definition upper (s : chars) : chars := map to_upper s.

Definition extract_self_grade_score (md_text : chars) : Q :=
  match re_search grade_re md_text with
  | None => -1
  | Some m =>
      let letter := upper (default [] (group 2 m)) in
      get mapping letter (-1)
  end.

(** [rf'(?i)\b{level}\b'] *)
Definition level_re (level : string) : regex :=
  Cat Bound (Cat (lit_ci (str level)) Bound).

(** The keys of [sev] in insertion order. *)
Definition severity_levels : list string :=
  ["critical"; "high"; "medium"; "low"]%string.

Definition count_severities (md_text : chars) : gmap string nat :=
  let sev : gmap string nat :=
    <["critical"%string := 0%nat]> (<["high"%string := 0%nat]>
      (<["medium"%string := 0%nat]> (<["low"%string := 0%nat]> ∅))) in
  foldl (fun sev level =>
           <[level := length (re_findall (level_re level) md_text)]> sev)
        sev severity_levels.

(** [sev.get(level, 0)], as a float. *)
Definition sev_get (sev : gmap string nat) (level : string) : Q :=
  inject_Z (Z.of_nat (default 0%nat (sev !! level))).

Definition severity_penalty_score (sev : gmap string nat) : Q :=
  let base := 100 in
  let base := base - py_min (sev_get sev "critical" * 25) 60 in
  let base := base - py_min (sev_get sev "high" * 15) 45 in
  let base := base - py_min (sev_get sev "medium" * 7) 35 in
  let base := base - py_min (sev_get sev "low" * 2) 10 in
  py_max 1 (py_min 100 base).

Definition combine_scores (self_grade sev_score : Q) : Q :=
  if Qlt_le_dec self_grade 0 then py_round1 sev_score
  else py_round1 ((6 # 10) * sev_score + (4 # 10) * self_grade).

(** The score of a report text, as [load_reports] computes it. *)
Definition final_score_of (md_text : chars) : Q :=
  let sev := count_severities md_text in
  let ss := severity_penalty_score sev in
  let gs := extract_self_grade_score md_text in
  combine_scores gs ss.

(** ** Markdown renderer *)

Fixpoint starts_with (p s : chars) : bool :=
  match p, s with
  | [], _ => true
  | x :: p', c :: s' => Ascii.eqb x c && starts_with p' s'
  | _ :: _, [] => false
  end.

(** [s.replace(old, new)] for a non-empty [old]: occurrences are replaced
    left to right, without overlap. *)
Fixpoint replace_from (old new : chars) (skip : nat) (s : chars) : chars :=
  match s with
  | [] => []
  | c :: s' =>
      match skip with
      | S n => replace_from old new n s'
      | O =>
          if starts_with old s
          then new ++ replace_from old new (length old - 1) s'
          else c :: replace_from old new 0 s'
      end
  end.

Definition replace (old new : string) (s : chars) : chars :=
  replace_from (str old) (str new) 0 s.

(** The [markdown] package is a collaborator: [None] when the import
    raises, and a call that returns [None] is a call that raises. *)
Definition renderer := option (chars -> option chars).

Definition render_markdown (markdown : renderer) (md_text : chars) : chars :=
  let fallback :=
    let safe := replace ">" "&gt;" (replace "<" "&lt;" (replace "&" "&amp;" md_text)) in
    str "<pre>" ++ safe ++ str "</pre>" in
  match markdown with
  | Some render =>
      match render md_text with
      | Some html => html
      | None => fallback
      end
  | None => fallback
  end.

(** ** Data model *)

Record ReportItem : Type := mkReportItem {
  filename : chars;
  title : chars;
  html : chars;
  text : chars;
  severity : gmap string nat;
  self_grade_score : Q;
  severity_score : Q;
  final_score : Q;
  mtime : chars
}.

(** ** Loader *)

(** A [pathlib.Path]: its components; the last one is the file name. *)
Definition Path := list chars.

Definition path_name (p : Path) : chars := List.last p [].

(** [s.rfind(x)] for one character. *)
Fixpoint rfind (x : ascii) (s : chars) : option nat :=
  match s with
  | [] => None
  | c :: s' =>
      match rfind x s' with
      | Some i => Some (S i)
      | None => if Ascii.eqb c x then Some 0%nat else None
      end
  end.

(** [p.stem]: the name without its last suffix. *)
Definition stem (p : Path) : chars :=
  let name := path_name p in
  match rfind "." name with
  | Some i =>
      if ((0 <? i) && (i <? length name - 1))%nat then take i name else name
  | None => name
  end.

(** Paths compare as their lists of components, strings by code point. *)
Fixpoint lex_compare {A} (cmp : A -> A -> comparison) (u v : list A) : comparison :=
  match u, v with
  | [], [] => Eq
  | [], _ :: _ => Lt
  | _ :: _, [] => Gt
  | x :: u', y :: v' =>
      match cmp x y with
      | Eq => lex_compare cmp u' v'
      | o => o
      end
  end.

Definition path_compare (p q : Path) : comparison :=
  lex_compare (lex_compare Ascii.compare) p q.

Definition path_le (p q : Path) : Prop := path_compare p q <> Gt.

#[global] Instance path_le_dec : RelDecision path_le.
Proof. intros p q. unfold path_le. destruct (path_compare p q); [left|left|right]; congruence. Defined.

(** [sorted(files)] *)
Definition sorted (files : list Path) : list Path := merge_sort path_le files.

(** What the loader reads from the disk: [read_text] is [None] when the
    read raises; [stat_mtime] is the formatted modification time, and a
    [stat] that raises is outside the model. *)
Record FileSystem : Type := mkFS {
  read_text : Path -> option chars;
  stat_mtime : Path -> chars
}.

(** [str.strip] *)
Fixpoint lstrip (s : chars) : chars :=
  match s with
  | c :: s' => if is_space c then lstrip s' else s
  | [] => []
  end.

Definition strip (s : chars) : chars := rev (lstrip (rev (lstrip s))).

(** [^\s*#\s+(.+)$] under [re.MULTILINE] *)
Definition heading_re : regex :=
  Cat Bol
   (Cat (Star is_space)
    (Cat (Chr (Ascii.eqb "#"))
     (Cat (Cat (Chr is_space) (Star is_space))
      (Cat (Group 1 (Cat (Chr not_newline) (Star not_newline)))
           Eol)))).

Definition title_of (md : chars) (p : Path) : chars :=
  match re_search heading_re md with
  | Some m => strip (default [] (group 1 m))
  | None => stem p
  end.

(** The body of the loop of [load_reports] after a successful read. *)
Definition load_one (disk : FileSystem) (markdown : renderer) (p : Path) (md : chars)
  : ReportItem :=
  let html := render_markdown markdown md in
  let sev := count_severities md in
  let ss := severity_penalty_score sev in
  let gs := extract_self_grade_score md in
  let fs := combine_scores gs ss in
  let title := title_of md p in
  let mtime := stat_mtime disk p in
  mkReportItem (path_name p) title html md sev gs ss fs mtime.

(** [load_reports], from the list [files] that the glob enumerates. *)
Definition load_reports (disk : FileSystem) (markdown : renderer) (files : list Path)
  : list ReportItem :=
  foldl (fun out p =>
           match read_text disk p with
           | None => out
           | Some md => out ++ [load_one disk markdown p md]
           end)
        [] (sorted files).

(** ** The list filter of the dashboard ([renderList]) *)

(** [s.includes(q)] *)
Fixpoint includes (s q : chars) : bool :=
  starts_with q s ||
  match s with
  | [] => false
  | _ :: s' => includes s' q
  end.

Definition text_pred (q : chars) (it : ReportItem) : bool :=
  includes (lower (title it)) q || includes (lower (filename it)) q.

Definition score_pred (minScore : Z) (it : ReportItem) : bool :=
  (minScore <=? js_round (final_score it))%Z.

(** [(it.severity[c]||0) > 0] *)
Definition chip_pred (it : ReportItem) (c : string) : bool :=
  (0 <? default 0 (severity it !! c))%nat.

(** The array [arr] of [renderList] before it is sorted. *)
Definition renderList_filter (DATA : list ReportItem)
    (query : chars) (minScore : Z) (chips : list string) : list ReportItem :=
  let q := lower query in
  let arr := List.filter (score_pred minScore) (List.filter (text_pred q) DATA) in
  match chips with
  | [] => arr
  | _ :: _ => List.filter (fun it => existsb (chip_pred it) chips) arr
  end.

(** ** What a pattern matches, said without the matcher *)

(** [matches r s s']: the pattern [r] can match from position [s] to
    position [s'], whatever the order in which the matcher explores. *)
Inductive matches : regex -> mstate -> mstate -> Prop :=
| M_Eps s : matches Eps s s
| M_Chr (p : ascii -> bool) c b a g :
    p c = true -> matches (Chr p) (MState b (c :: a) g) (MState (c :: b) a g)
| M_Cat r1 r2 s s1 s2 :
    matches r1 s s1 -> matches r2 s1 s2 -> matches (Cat r1 r2) s s2
| M_AltL r1 r2 s s' : matches r1 s s' -> matches (Alt r1 r2) s s'
| M_AltR r1 r2 s s' : matches r2 s s' -> matches (Alt r1 r2) s s'
| M_OptYes r s s' : matches r s s' -> matches (Opt r) s s'
| M_OptNo r s : matches (Opt r) s s
| M_StarNil p s : matches (Star p) s s
| M_StarCons (p : ascii -> bool) c b a g s' :
    p c = true ->
    matches (Star p) (MState (c :: b) a g) s' ->
    matches (Star p) (MState b (c :: a) g) s'
| M_Bound s : at_boundary s = true -> matches Bound s s
| M_Bol s : at_bol s = true -> matches Bol s s
| M_Eol s : at_eol s = true -> matches Eol s s
| M_Group n r s s' :
    matches r s s' -> matches (Group n r) s (set_group n s s').

(** The pattern [r] matches the text [t] at offset [i], ending in [s']. *)
Definition matches_at (r : regex) (t : chars) (i : nat) (s' : mstate) : Prop :=
  (i <= length t)%nat /\
  matches r (MState (rev (take i t)) (drop i t) []) s'.

Definition found (r : regex) (t : chars) : Prop :=
  exists i s', matches_at r t i s'.

(** ** The statements of the specification *)

Definition clamp (x lo hi : Q) : Q :=
  if Qlt_le_dec x lo then lo else if Qlt_le_dec hi x then hi else x.

(** The grade table of the specification, by letter. *)
Definition grade_score (l : ascii) : Q :=
  if Ascii.eqb l "A" then 95 else
  if Ascii.eqb l "B" then 85 else
  if Ascii.eqb l "C" then 75 else
  if Ascii.eqb l "D" then 60 else
  if Ascii.eqb l "E" then 40 else
  if Ascii.eqb l "F" then 40 else -1.

(** The grade pattern as the specification words it: the separator is
    optional. Everything else is the pattern of the code. *)
Definition spec_grade_re : regex :=
  Cat Bound
   (Cat (Group 1
          (Alt (Cat (lit_ci (str "self"))
                 (Cat (Opt (Chr (fun c => one_of "-" c || is_space c)))
                      (lit_ci (str "grade"))))
               (lit_ci (str "grade"))))
    (Cat (Star is_space)
     (Cat (Opt (Cat (Chr (one_of ":-")) (Star is_space)))
      (Cat (Group 2 (Chr (ci_set "ABCDEF")))
           Bound)))).

(** A word boundary between two neighbouring characters, either of which
    may be missing at an end of the text. *)
Definition boundary (prev next : option ascii) : bool :=
  xorb (word_at prev) (word_at next).

Definition char_before (t : chars) (i : nat) : option ascii :=
  match i with
  | O => None
  | S j => t !! j
  end.

(** The word [w] occurs in [t] at offset [i], whatever its case, with a
    word boundary on each side. *)
Definition occurs_at (w t : chars) (i : nat) : bool :=
  bool_decide (lower (take (length w) (drop i t)) = lower w)
  && boundary (char_before t i) (t !! i)
  && boundary (char_before t (i + length w)) (t !! (i + length w)%nat).

Definition occurrences (w t : chars) : nat :=
  length (List.filter (occurs_at w t) (seq 0 (S (length t)))).

(** HTML escaping, character by character. *)
Definition escape_char (c : ascii) : chars :=
  if Ascii.eqb c "&" then str "&amp;" else
  if Ascii.eqb c "<" then str "&lt;" else
  if Ascii.eqb c ">" then str "&gt;" else [c].

Definition html_escape (s : chars) : chars := flat_map escape_char s.

(** The sources of a batch that can be read. *)
Definition readable (disk : FileSystem) (p : Path) : bool :=
  match read_text disk p with Some _ => true | None => false end.

(** The three predicates of the list filter, joined. *)
Definition keeps (q : chars) (minScore : Z) (chips : list string) (it : ReportItem) : Prop :=
  (includes (lower (title it)) q = true \/ includes (lower (filename it)) q = true) /\
  (minScore <= js_round (final_score it))%Z /\
  (exists c, In c chips /\ default 0%nat (severity it !! c) <> 0%nat).

(** [m] is a match of [r] in [t] at the leftmost matching offset [i]. *)
Definition first_match (r : regex) (t : chars) (i : nat) (m : mstate) : Prop :=
  matches_at r t i m /\ forall j s, (j < i)%nat -> ~ matches_at r t j s.

(** [m] is the only match of [r] in [t] at offset [i]. *)
Definition only_match (r : regex) (t : chars) (i : nat) (m : mstate) : Prop :=
  forall m', matches_at r t i m' -> m' = m.

(** The [markdown] package is missing, or its call raises on [md_text]. *)
Definition renderer_fails (markdown : renderer) (md_text : chars) : Prop :=
  match markdown with
  | None => True
  | Some render => render md_text = None
  end.

(** One iteration of the loop of [load_reports]: a record, or nothing when
    the read raises. *)
Definition record_of (disk : FileSystem) (markdown : renderer) (p : Path)
  : option ReportItem :=
  load_one disk markdown p <$> read_text disk p.

(** ** Notions of the proofs *)

(** A float that holds a whole number. *)
Definition whole (q : Q) : Prop := exists n : Z, q == inject_Z n.

(** A pattern that matches in at most one way from any position. *)
Definition deterministic (r : regex) : Prop :=
  forall s s1 s2, matches r s s1 -> matches r s s2 -> s1 = s2.

(** A pattern whose matches all begin with a character of the class [p]. *)
Definition starts_in (r : regex) (p : ascii -> bool) : Prop :=
  forall s s', matches r s s' -> exists c a, after s = c :: a /\ p c = true.

(** [a] begins with the word [w], whatever the case. *)
Fixpoint ci_prefix (w a : chars) : bool :=
  match w, a with
  | [], _ => true
  | x :: w', c :: a' => ci_char x c && ci_prefix w' a'
  | _ :: _, [] => false
  end.

(** The word [w] occurs at the position between [b] and [a], with a word
    boundary on each side. *)
Definition occ_here (w b a : chars) : bool :=
  boundary (head b) (head a) && ci_prefix w a
  && boundary (head (rev (take (length w) a) ++ b)) (head (drop (length w) a)).

(** The occurrences of [w] at or after the position between [b] and [a]. *)
Fixpoint count_here (w b a : chars) : nat :=
  (if occ_here w b a then 1 else 0) +
  match a with
  | [] => 0
  | c :: a' => count_here w (c :: b) a'
  end.

(** ** Proof steps *)

Ltac invert H := inversion H; subst; clear H.

(** Takes apart the sequential skeleton of a match. *)
Ltac invert_seq :=
  repeat match goal with
  | H : matches (Cat _ _) _ _ |- _ => invert H
  | H : matches (Group _ _) _ _ |- _ => invert H
  | H : matches (Chr _) _ _ |- _ => invert H
  | H : matches Bound _ _ |- _ => invert H
  | H : matches Bol _ _ |- _ => invert H
  | H : matches Eol _ _ |- _ => invert H
  | H : matches Eps _ _ |- _ => invert H
  end.

(** ** The rest of the dashboard *)

(** A stable sort by insertion: [after x y] says that [x] has to come
    after [y]. Python's [sorted] and, since ECMAScript 2019,
    [Array.prototype.sort] are stable, so for a comparator that is an
    order this is the arrangement they return. *)
Fixpoint insert_by {A} (after : A -> A -> bool) (x : A) (l : list A) : list A :=
  match l with
  | [] => [x]
  | y :: l' => if after x y then y :: insert_by after x l' else x :: y :: l'
  end.

Fixpoint sort_by {A} (after : A -> A -> bool) (l : list A) : list A :=
  match l with
  | [] => []
  | x :: l' => insert_by after x (sort_by after l')
  end.

(** [arr.sort(cmp)]: [a] comes after [b] when [cmp(a, b) > 0]. *)
Definition js_sort {A} (cmp : A -> A -> Q) (arr : list A) : list A :=
  sort_by (fun a b => negb (Qle_bool (cmp a b) 0)) arr.

(** [renderList] with [sortBy === "score"]: the filter, then
    [arr.sort((a,b)=>b.final_score - a.final_score)]. *)
Definition renderList_by_score (DATA : list ReportItem)
    (query : chars) (minScore : Z) (chips : list string) : list ReportItem :=
  let arr := renderList_filter DATA query minScore chips in
  js_sort (fun a b => final_score b - final_score a) arr.

(** The custom properties of the style sheet that [badgeColor] reads. *)
Inductive css_var : Type := ok | warn | mid | bad.

Definition badgeColor (score : Q) : css_var :=
  if Qle_bool 85 score then ok
  else if Qle_bool 70 score then warn
  else if Qle_bool 55 score then mid
  else bad.

(** [HTML_TMPL]: the four stretches of text around its three [%s]. *)
Record Template : Type := mkTemplate {
  tmpl_head : chars;
  tmpl_style : chars;
  tmpl_data : chars;
  tmpl_tail : chars
}.

(** [HTML_TMPL % (title, CSS, data_json)] *)
Definition format3 (t : Template) (a b c : chars) : chars :=
  tmpl_head t ++ a ++ tmpl_style t ++ b ++ tmpl_data t ++ c ++ tmpl_tail t.

(** [json.dumps(payload).replace("</", "<\\/")]; [json.dumps] is the
    library's. *)
Definition data_json (dumps : list ReportItem -> chars) (items : list ReportItem)
  : chars :=
  let payload := items in
  replace "</" "<\/" (dumps payload).

Definition build_dashboard_html (dumps : list ReportItem -> chars)
    (HTML_TMPL : Template) (CSS : chars)
    (items : list ReportItem) (title : chars) : chars :=
  format3 HTML_TMPL title CSS (data_json dumps items).

(** What [main] leaves behind: nothing when no report was loaded, else the
    page written to [args.out] and the number of reports it announces. *)
Inductive outcome : Type :=
| NoReports
| Wrote (out : chars) (page : chars) (count : nat).

Definition main (disk : FileSystem) (markdown : renderer)
    (dumps : list ReportItem -> chars) (HTML_TMPL : Template) (CSS : chars)
    (files : list Path) (out : chars) : outcome :=
  let items := load_reports disk markdown files in
  match items with
  | [] => NoReports
  | _ :: _ =>
      let html :=
        build_dashboard_html dumps HTML_TMPL CSS items (str "Security Audit Dashboard") in
      Wrote out html (length items)
  end.

(** ** The scoring functions of ScannerToHTML.py *)

(** [(?i)grade\s*[:\-]\s*([ABCDEF])] *)
Definition scanner_grade_re : regex :=
  Cat (lit_ci (str "grade"))
   (Cat (Star is_space)
    (Cat (Chr (one_of ":-"))
     (Cat (Star is_space)
          (Group 1 (Chr (ci_set "ABCDEF")))))).

Definition _extract_self_grade (md_text : chars) : Q :=
  match re_search scanner_grade_re md_text with
  | None => -1
  | Some m =>
      let letter := upper (default [] (group 1 m)) in
      get mapping letter (-1)
  end.

Definition _count_severities (md_text : chars) : gmap string nat :=
  let sev : gmap string nat :=
    <["critical"%string := 0%nat]> (<["high"%string := 0%nat]>
      (<["medium"%string := 0%nat]> (<["low"%string := 0%nat]> ∅))) in
  foldl (fun sev level =>
           <[level := length (re_findall (level_re level) md_text)]> sev)
        sev severity_levels.

Definition _severity_penalty_score (sev : gmap string nat) : Q :=
  let base := 100 in
  let base := base - py_min (sev_get sev "critical" * 25) 60 in
  let base := base - py_min (sev_get sev "high" * 15) 45 in
  let base := base - py_min (sev_get sev "medium" * 7) 35 in
  let base := base - py_min (sev_get sev "low" * 2) 10 in
  py_max 1 (py_min 100 base).

(** No rounding without a self-grade: [float(sev_score)]. *)
Definition _combine_scores (self_grade sev_score : Q) : Q :=
  if Qlt_le_dec self_grade 0 then sev_score
  else py_round1 ((6 # 10) * sev_score + (4 # 10) * self_grade).

(** The dictionary that [compute_security_score] returns. *)
Record SecurityScore : Type := mkSecurityScore {
  score_final : Q;
  score_counts : gmap string nat;
  score_self_grade : Q;
  score_severity : Q
}.

Definition compute_security_score (md_text : chars) : SecurityScore :=
  let sev := _count_severities md_text in
  let sev_score := _severity_penalty_score sev in
  let letter_score := _extract_self_grade md_text in
  let final := _combine_scores letter_score sev_score in
  mkSecurityScore final sev letter_score sev_score.

(** [int(round(score))] of the scanner's page. *)
Definition shown_score (score : Q) : Z := round_half_even score.

(** A pattern without groups. *)
Fixpoint group_free (r : regex) : bool :=
  match r with
  | Group _ _ => false
  | Cat r1 r2 | Alt r1 r2 => group_free r1 && group_free r2
  | Opt r1 => group_free r1
  | _ => true
  end.

(** The text that a position lies in. *)
Definition text_of (s : mstate) : chars := rev (before s) ++ after s.

(** The same position, with other groups. *)
Definition regroup (h : list (nat * chars)) (s : mstate) : mstate :=
  MState (before s) (after s) h.

(** * Properties *)

(** ** Arithmetic of the scores *)

Lemma py_min_Qmin (a b : Q) : py_min a b == Qmin a b.
Proof.
  unfold py_min. destruct (Qcompare_spec b a) as [H|H|H].
  - rewrite H. symmetry. apply Q.min_id.
  - symmetry. apply Q.min_r. lra.
  - symmetry. apply Q.min_l. lra.
Qed.

Lemma py_min_le_l (a b : Q) : py_min a b <= a.
Proof. unfold py_min. destruct (Qcompare_spec b a); lra. Qed.

Lemma py_min_le_r (a b : Q) : py_min a b <= b.
Proof. unfold py_min. destruct (Qcompare_spec b a); lra. Qed.

Lemma py_min_cases (a b : Q) : py_min a b = a \/ py_min a b = b.
Proof. unfold py_min. destruct (Qcompare b a); auto. Qed.

Lemma py_max_cases (a b : Q) : py_max a b = a \/ py_max a b = b.
Proof. unfold py_max. destruct (Qcompare b a); auto. Qed.

Lemma py_max_clamp (x : Q) : py_max 1 (py_min 100 x) == clamp x 1 100.
Proof.
  unfold py_max, py_min, clamp.
  destruct (Qcompare_spec x 100) as [H|H|H];
    destruct (Qlt_le_dec x 1); destruct (Qlt_le_dec 100 x); try lra;
    match goal with
    | |- context [Qcompare ?u ?v] => destruct (Qcompare_spec u v)
    end; lra.
Qed.

Lemma severity_penalty_score_bounds (sev : gmap string nat) :
  1 <= severity_penalty_score sev <= 100.
Proof.
  unfold severity_penalty_score.
  set (base := 100 - _ - _ - _ - _).
  rewrite py_max_clamp. unfold clamp.
  destruct (Qlt_le_dec base 1); [lra|]. destruct (Qlt_le_dec 100 base); lra.
Qed.

Lemma whole_inject (n : Z) : whole (inject_Z n).
Proof. exists n. reflexivity. Qed.

Lemma whole_minus (a b : Q) : whole a -> whole b -> whole (a - b).
Proof.
  intros [n Hn] [m Hm]. exists (n - m)%Z.
  rewrite Hn, Hm. unfold Z.sub. rewrite inject_Z_plus, inject_Z_opp. reflexivity.
Qed.

Lemma whole_mult (a b : Q) : whole a -> whole b -> whole (a * b).
Proof.
  intros [n Hn] [m Hm]. exists (n * m)%Z.
  rewrite Hn, Hm, inject_Z_mult. reflexivity.
Qed.

Lemma whole_py_min (a b : Q) : whole a -> whole b -> whole (py_min a b).
Proof. intros Ha Hb. destruct (py_min_cases a b) as [->| ->]; assumption. Qed.

Lemma whole_py_max (a b : Q) : whole a -> whole b -> whole (py_max a b).
Proof. intros Ha Hb. destruct (py_max_cases a b) as [->| ->]; assumption. Qed.

Lemma severity_penalty_score_whole (sev : gmap string nat) :
  whole (severity_penalty_score sev).
Proof.
  unfold severity_penalty_score, sev_get.
  repeat first
    [ apply whole_py_max | apply whole_py_min | apply whole_minus
    | apply whole_mult | apply whole_inject
    | apply (whole_inject 1) | apply (whole_inject 100) | apply (whole_inject 60)
    | apply (whole_inject 45) | apply (whole_inject 35) | apply (whole_inject 10)
    | apply (whole_inject 25) | apply (whole_inject 15) | apply (whole_inject 7)
    | apply (whole_inject 2) ].
Qed.

Lemma round_half_even_whole (x : Q) (n : Z) :
  x == inject_Z n -> round_half_even x = n.
Proof.
  intros H. unfold round_half_even.
  assert (Hf : Qfloor x = n) by (rewrite H; apply Qfloor_Z).
  rewrite Hf.
  destruct (Qcompare_spec (x - inject_Z n) (1 # 2)) as [E|E|E]; try lra; reflexivity.
Qed.

(** Rounding to one decimal leaves a decimal with one fractional digit. *)
Lemma py_round1_tenths (x : Q) (t : Z) :
  x == inject_Z t / 10 -> py_round1 x == x.
Proof.
  intros H. unfold py_round1.
  rewrite (round_half_even_whole (x * 10) t).
  - rewrite H. reflexivity.
  - rewrite H. field.
Qed.

Lemma round_half_even_bounds (x : Q) (lo hi : Z) :
  inject_Z lo <= x <= inject_Z hi -> (lo <= round_half_even x <= hi)%Z.
Proof.
  intros [Hlo Hhi]. unfold round_half_even.
  pose proof (Qfloor_le x) as Hf. pose proof (Qlt_floor x) as Hc.
  assert (Hl : (lo <= Qfloor x)%Z).
  { rewrite <- (Qfloor_Z lo). apply Qfloor_resp_le. exact Hlo. }
  assert (Hh : (Qfloor x <= hi)%Z).
  { rewrite Zle_Qle. lra. }
  destruct (Qcompare_spec (x - inject_Z (Qfloor x)) (1 # 2)) as [E|E|E].
  - destruct (Z.even (Qfloor x)); [lia|].
    assert (Qfloor x < hi)%Z; [|lia].
    rewrite Zlt_Qlt. lra.
  - lia.
  - assert (Qfloor x < hi)%Z; [|lia].
    rewrite Zlt_Qlt. lra.
Qed.

Lemma py_round1_bounds (x : Q) : 1 <= x <= 100 -> 1 <= py_round1 x <= 100.
Proof.
  intros H. unfold py_round1.
  destruct (round_half_even_bounds (x * 10) 10 1000) as [Hl Hh].
  { change (inject_Z 10) with 10. change (inject_Z 1000) with 1000. lra. }
  rewrite Zle_Qle in Hl, Hh.
  change (inject_Z 10) with 10 in Hl. change (inject_Z 1000) with 1000 in Hh.
  set (r := inject_Z _) in *.
  split.
  - apply Qle_shift_div_l; lra.
  - apply Qle_shift_div_r; lra.
Qed.

Lemma combine_scores_bounds (g s : Q) :
  1 <= s <= 100 -> g < 0 \/ 1 <= g <= 100 ->
  1 <= combine_scores g s <= 100.
Proof.
  intros Hs Hg. unfold combine_scores.
  destruct (Qlt_le_dec g 0).
  - apply py_round1_bounds. exact Hs.
  - apply py_round1_bounds. lra.
Qed.

Lemma clamp_comp (x y lo hi : Q) : x == y -> clamp x lo hi == clamp y lo hi.
Proof.
  intros H. unfold clamp.
  destruct (Qlt_le_dec x lo), (Qlt_le_dec y lo); try lra;
    destruct (Qlt_le_dec hi x), (Qlt_le_dec hi y); lra.
Qed.

(** C1. The severity score is 100 less the four capped deductions, clamped
    to the interval from 1 to 100. *)
Theorem severity_penalty_score_formula (sev : gmap string nat) :
  severity_penalty_score sev ==
  clamp (100 - Qmin (25 * sev_get sev "critical") 60
             - Qmin (15 * sev_get sev "high") 45
             - Qmin (7 * sev_get sev "medium") 35
             - Qmin (2 * sev_get sev "low") 10) 1 100.
Proof.
  unfold severity_penalty_score.
  rewrite py_max_clamp. apply clamp_comp.
  rewrite !py_min_Qmin.
  rewrite (Qmult_comm 25), (Qmult_comm 15), (Qmult_comm 7), (Qmult_comm 2).
  reflexivity.
Qed.



(** ** The matcher finds what the pattern matches *)

Section MatcherFacts.
Context {A : Type}.
Implicit Types (k : mstate -> option A) (s : mstate) (r : regex).

Lemma star_exec_sound p k a : forall b g x,
  star_exec p k b a g = Some x ->
  exists s', matches (Star p) (MState b a g) s' /\ k s' = Some x.
Proof.
  induction a as [|c a IH]; intros b g x; simpl.
  - intros H. eexists; split; [apply M_StarNil | exact H].
  - destruct (p c) eqn:Hp.
    + destruct (star_exec p k (c :: b) a g) as [y|] eqn:E.
      * intros [= <-]. destruct (IH _ _ _ E) as (s' & Hm & Hk).
        exists s'. split; [|exact Hk]. apply M_StarCons; assumption.
      * intros H. eexists; split; [apply M_StarNil | exact H].
    + intros H. eexists; split; [apply M_StarNil | exact H].
Qed.

Lemma star_exec_here p k b a g :
  is_Some (k (MState b a g)) -> is_Some (star_exec p k b a g).
Proof.
  intros H. destruct a as [|c a]; simpl; [exact H|].
  destruct (p c); [|exact H].
  destruct (star_exec p k (c :: b) a g); [eauto | exact H].
Qed.
End MatcherFacts.

Lemma exec_sound r : forall A (k : mstate -> option A) s x,
  exec r k s = Some x -> exists s', matches r s s' /\ k s' = Some x.
Proof.
  induction r as [|p|r1 IH1 r2 IH2|r1 IH1 r2 IH2|r1 IH1|p| | | |n r1 IH1];
    intros A k s x; simpl.
  - intros H. exists s. split; [constructor | exact H].
  - destruct s as [b [|c a] g]; simpl; [discriminate|].
    destruct (p c) eqn:Hp; [|discriminate].
    intros H. eexists; split; [apply M_Chr; exact Hp | exact H].
  - intros H. destruct (IH1 _ _ _ _ H) as (s1 & Hm1 & H1).
    destruct (IH2 _ _ _ _ H1) as (s2 & Hm2 & H2).
    exists s2. split; [econstructor; eassumption | exact H2].
  - destruct (exec r1 k s) as [y|] eqn:E.
    + intros [= <-]. destruct (IH1 _ _ _ _ E) as (s' & Hm & Hk).
      exists s'. split; [apply M_AltL; exact Hm | exact Hk].
    + intros H. destruct (IH2 _ _ _ _ H) as (s' & Hm & Hk).
      exists s'. split; [apply M_AltR; exact Hm | exact Hk].
  - destruct (exec r1 k s) as [y|] eqn:E.
    + intros [= <-]. destruct (IH1 _ _ _ _ E) as (s' & Hm & Hk).
      exists s'. split; [apply M_OptYes; exact Hm | exact Hk].
    + intros H. exists s. split; [apply M_OptNo | exact H].
  - destruct s as [b a g]. simpl. apply star_exec_sound.
  - destruct (at_boundary s) eqn:E; [|discriminate].
    intros H. exists s. split; [apply M_Bound; exact E | exact H].
  - destruct (at_bol s) eqn:E; [|discriminate].
    intros H. exists s. split; [apply M_Bol; exact E | exact H].
  - destruct (at_eol s) eqn:E; [|discriminate].
    intros H. exists s. split; [apply M_Eol; exact E | exact H].
  - intros H. destruct (IH1 _ _ _ _ H) as (s' & Hm & Hk).
    exists (set_group n s s'). split; [apply M_Group; exact Hm | exact Hk].
Qed.

Lemma exec_complete r s s' :
  matches r s s' ->
  forall A (k : mstate -> option A), is_Some (k s') -> is_Some (exec r k s).
Proof.
  induction 1 as [s|p c b a g Hp|r1 r2 s s1 s2 _ IH1 _ IH2|r1 r2 s s' _ IH
                 |r1 r2 s s' _ IH|r s s' _ IH|r s|p s|p c b a g s' Hp _ IH
                 |s Hb|s Hb|s Hb|n r s s' _ IH];
    intros A k Hk; simpl.
  - exact Hk.
  - rewrite Hp. exact Hk.
  - apply IH1, IH2, Hk.
  - destruct (IH _ k Hk) as [y ->]. eauto.
  - destruct (exec r1 k s); [eauto | apply IH, Hk].
  - destruct (IH _ k Hk) as [y ->]. eauto.
  - destruct (exec r k s); [eauto | exact Hk].
  - destruct s as [b a g]. apply star_exec_here. exact Hk.
  - rewrite Hp. specialize (IH _ k Hk). simpl in IH.
    destruct IH as [y ->]. eauto.
  - rewrite Hb. exact Hk.
  - rewrite Hb. exact Hk.
  - rewrite Hb. exact Hk.
  - apply (IH _ (fun s' => k (set_group n s s'))). exact Hk.
Qed.

Lemma match_at_sound r b a s' :
  match_at r b a = Some s' -> matches r (MState b a []) s'.
Proof.
  intros H. destruct (exec_sound _ _ _ _ _ H) as (s1 & Hm & [= <-]). exact Hm.
Qed.

Lemma match_at_none r b a :
  match_at r b a = None <-> forall s', ~ matches r (MState b a []) s'.
Proof.
  split.
  - intros H s' Hm.
    destruct (exec_complete _ _ _ Hm _ Some) as [y Hy]; [eauto|].
    unfold match_at in H. congruence.
  - intros H. destruct (match_at r b a) as [s'|] eqn:E; [|reflexivity].
    exfalso. exact (H s' (match_at_sound _ _ _ _ E)).
Qed.

Lemma search_from_spec r a : forall b,
  match search_from r b a with
  | Some s' =>
      exists i, (i <= length a)%nat /\
        match_at r (rev (take i a) ++ b) (drop i a) = Some s' /\
        forall j, (j < i)%nat -> match_at r (rev (take j a) ++ b) (drop j a) = None
  | None =>
      forall i, (i <= length a)%nat ->
        match_at r (rev (take i a) ++ b) (drop i a) = None
  end.
Proof.
  induction a as [|c a IH]; intros b; simpl.
  - destruct (match_at r b []) as [s'|] eqn:E.
    + exists 0%nat. split; [lia|]. split; [exact E|]. intros j Hj. lia.
    + intros i Hi. replace i with 0%nat by lia. exact E.
  - destruct (match_at r b (c :: a)) as [s'|] eqn:E.
    + exists 0%nat. split; [lia|]. split; [exact E|]. intros j Hj. lia.
    + specialize (IH (c :: b)). destruct (search_from r (c :: b) a) as [s'|].
      * destruct IH as (i & Hi & Hm & Hn). exists (S i).
        split; [lia|]. split.
        { simpl. rewrite <- app_assoc. exact Hm. }
        intros [|j] Hj; [exact E|].
        simpl. rewrite <- app_assoc. apply Hn. lia.
      * intros [|i] Hi; [exact E|].
        simpl. rewrite <- app_assoc. apply IH. lia.
Qed.

(** [re.search] answers [None] exactly when the pattern matches nowhere. *)
Lemma re_search_none r t : re_search r t = None <-> ~ found r t.
Proof.
  unfold re_search. pose proof (search_from_spec r t []) as H.
  destruct (search_from r [] t) as [s'|].
  - destruct H as (i & Hi & Hm & _). split; [discriminate|].
    intros Hn. exfalso. apply Hn. exists i, s'. split; [exact Hi|].
    rewrite app_nil_r in Hm. apply match_at_sound. exact Hm.
  - split; [|reflexivity]. intros _ (i & s' & Hi & Hm).
    specialize (H i Hi). rewrite app_nil_r in H.
    rewrite match_at_none in H. exact (H s' Hm).
Qed.

(** [re.search] answers with a match at the leftmost matching offset. *)
Lemma re_search_some r t s' :
  re_search r t = Some s' ->
  exists i, matches_at r t i s' /\
    forall j s'', (j < i)%nat -> ~ matches_at r t j s''.
Proof.
  unfold re_search. pose proof (search_from_spec r t []) as H.
  intros E. rewrite E in H. destruct H as (i & Hi & Hm & Hn).
  exists i. split.
  - split; [exact Hi|]. rewrite app_nil_r in Hm. apply match_at_sound. exact Hm.
  - intros j s'' Hj [_ Hm']. specialize (Hn j Hj).
    rewrite app_nil_r, match_at_none in Hn. exact (Hn s'' Hm').
Qed.

(** ** The self-grade extractor *)

Lemma consumed_one c b a g g' :
  consumed (MState b (c :: a) g) (MState (c :: b) a g') = [c].
Proof.
  unfold consumed. simpl after.
  replace (length (c :: a) - length a)%nat with 1%nat by (simpl; lia).
  reflexivity.
Qed.

(** A match of the grade pattern holds one letter of the table in group 2. *)
Lemma grade_re_letter s m :
  matches grade_re s m ->
  exists l, group 2 m = Some [l] /\ ci_set "ABCDEF" l = true.
Proof.
  unfold grade_re. intros H.
  invert_seq.
  match goal with Hl : ci_set _ ?c = true |- _ => exists c; split; [|exact Hl] end.
  unfold group, set_group. simpl. rewrite consumed_one. reflexivity.
Qed.

Lemma mapping_letter l :
  ci_set "ABCDEF" l = true ->
  get mapping (upper [l]) (-1) = grade_score (to_upper l) /\
  In (grade_score (to_upper l)) [40; 60; 75; 85; 95].
Proof.
  destruct l as [[] [] [] [] [] [] [] []]; try discriminate; intros _;
    (split; [reflexivity | simpl; tauto]).
Qed.

Lemma lit_ci_det w : forall s s1 s2,
  matches (lit_ci w) s s1 -> matches (lit_ci w) s s2 -> s1 = s2.
Proof.
  induction w as [|x w IH]; intros s s1 s2 H1 H2; simpl in *.
  - invert H1. invert H2. reflexivity.
  - invert H1. invert H2.
    match goal with
    | Ha : matches (Chr _) s ?u, Hb : matches (Chr _) s ?v |- _ =>
        invert Ha; invert Hb
    end.
    eapply IH; eassumption.
Qed.

Lemma lit_ci_first w b a g s' :
  matches (lit_ci w) (MState b a g) s' ->
  match w with
  | x :: _ => exists c a', a = c :: a' /\ ci_char x c = true
  | [] => True
  end.
Proof.
  destruct w as [|x w]; [trivial|]. simpl. intros H. invert H.
  match goal with Ha : matches (Chr _) _ _ |- _ => invert Ha end.
  eauto.
Qed.

(** A greedy run that is followed by a character outside its class can
    end in one place only. *)
Lemma star_stop_det p s s1 :
  matches (Star p) s s1 ->
  forall s2, matches (Star p) s s2 ->
  (exists c a, after s1 = c :: a /\ p c = false) ->
  (exists c a, after s2 = c :: a /\ p c = false) ->
  s1 = s2.
Proof.
  remember (Star p) as r eqn:Er. intros H.
  induction H as [| | | | | | |q s|q c b a g s' Hq Hm IH| | | |]; try discriminate;
    injection Er as ->; intros s2 H2 (c1 & a1 & E1 & P1) (c2 & a2 & E2 & P2).
  - invert H2; [reflexivity|].
    simpl in E1. injection E1 as -> ->. congruence.
  - invert H2.
    + simpl in E2. injection E2 as -> ->. congruence.
    + apply IH; eauto.
Qed.

Lemma dash_space_not_g c :
  (one_of "-" c || is_space c) = true -> ci_char "g" c = false.
Proof. destruct c as [[] [] [] [] [] [] [] []]; vm_compute; congruence. Qed.

Lemma s_not_g c : ci_char "s" c = true -> ci_char "g" c = false.
Proof. destruct c as [[] [] [] [] [] [] [] []]; vm_compute; congruence. Qed.

Lemma sep_not_space c : one_of ":-" c = true -> is_space c = false.
Proof. destruct c as [[] [] [] [] [] [] [] []]; vm_compute; congruence. Qed.

Lemma letter_not_space c : ci_set "ABCDEF" c = true -> is_space c = false.
Proof. destruct c as [[] [] [] [] [] [] [] []]; vm_compute; congruence. Qed.

(** Patterns of the shape of the grade pattern match in one way only. *)
Section OneMatch.
Variables (S G : regex) (ps pg D sp sep L : ascii -> bool).

Hypothesis S_det : deterministic S.
Hypothesis G_det : deterministic G.
Hypothesis S_first : starts_in S ps.
Hypothesis G_first : starts_in G pg.
Hypothesis ps_pg : forall c, ps c = true -> pg c = false.
Hypothesis D_pg : forall c, D c = true -> pg c = false.
Hypothesis sep_sp : forall c, sep c = true -> sp c = false.
Hypothesis L_sp : forall c, L c = true -> sp c = false.

Lemma keyword_det :
  deterministic (Alt (Cat S (Cat (Opt (Chr D)) G)) G).
Proof.
  assert (Hself : forall u v w,
    matches (Cat S (Cat (Opt (Chr D)) G)) u v -> matches G u w -> False).
  { intros u v w Ha Hb. invert Ha.
    match goal with Hs : matches S _ _ |- _ =>
      destruct (S_first _ _ Hs) as (c & a & E & Hc) end.
    destruct (G_first _ _ Hb) as (c' & a' & E' & Hc').
    rewrite E in E'. injection E' as <- <-.
    rewrite (ps_pg _ Hc) in Hc'. discriminate. }
  assert (Hopt : forall u v w,
    matches (Chr D) u v -> matches G u w -> False).
  { intros u v w Ha Hb. invert Ha.
    destruct (G_first _ _ Hb) as (c' & a' & E' & Hc').
    simpl in E'. injection E' as <- <-.
    match goal with Hd : D _ = true |- _ =>
      rewrite (D_pg _ Hd) in Hc' end.
    discriminate. }
  intros s s1 s2 H1 H2. invert H1; invert H2.
  - repeat match goal with H : matches (Cat _ _) _ _ |- _ => invert H end.
    match goal with
    | Ha : matches S s ?u, Hb : matches S s ?v |- _ =>
        pose proof (S_det _ _ _ Ha Hb); subst
    end.
    repeat match goal with H : matches (Opt _) _ _ |- _ => invert H end.
    + repeat match goal with H : matches (Chr _) _ _ |- _ => invert H end.
      eapply G_det; eassumption.
    + exfalso. eapply Hopt; eassumption.
    + exfalso. eapply Hopt; eassumption.
    + eapply G_det; eassumption.
  - exfalso. eapply Hself; eassumption.
  - exfalso. eapply Hself; eassumption.
  - eapply G_det; eassumption.
Qed.

Lemma star_chr_det (p q : ascii -> bool) s u1 u2 v1 v2 :
  (forall c, q c = true -> p c = false) ->
  matches (Star p) s u1 -> matches (Chr q) u1 v1 ->
  matches (Star p) s u2 -> matches (Chr q) u2 v2 ->
  v1 = v2.
Proof.
  intros Hqp Hs1 Hc1 Hs2 Hc2.
  assert (u1 = u2) as ->.
  { eapply star_stop_det; try eassumption.
    - invert Hc1. simpl. eauto.
    - invert Hc2. simpl. eauto. }
  invert Hc1. invert Hc2. reflexivity.
Qed.

Lemma graded_det (K : regex) :
  deterministic K ->
  deterministic
    (Cat Bound
      (Cat (Group 1 K)
        (Cat (Star sp)
          (Cat (Chr sep)
            (Cat (Star sp)
              (Cat (Group 2 (Chr L)) Bound)))))).
Proof.
  intros K_det s m1 m2 H1 H2.
  repeat match goal with
  | H : matches (Cat _ _) _ _ |- _ => invert H
  | H : matches Bound _ _ |- _ => invert H
  | H : matches (Group _ _) _ _ |- _ => invert H
  end.
  match goal with
  | Ha : matches K ?s0 ?u, Hb : matches K ?s0 ?v |- _ =>
      pose proof (K_det _ _ _ Ha Hb) as E; subst; clear Ha Hb
  end.
  match goal with
  | Ha : matches (Star sp) (set_group 1 ?s0 ?k) ?u, Ha' : matches (Chr sep) ?u ?u',
    Hb : matches (Star sp) (set_group 1 ?s0 ?k) ?v, Hb' : matches (Chr sep) ?v ?v' |- _ =>
      pose proof (star_chr_det _ _ _ _ _ _ _ sep_sp Ha Ha' Hb Hb'); subst;
      clear Ha Ha' Hb Hb'
  end.
  match goal with
  | Ha : matches (Star sp) ?k ?u, Ha' : matches (Chr L) ?u ?u',
    Hb : matches (Star sp) ?k ?v, Hb' : matches (Chr L) ?v ?v' |- _ =>
      pose proof (star_chr_det _ _ _ _ _ _ _ L_sp Ha Ha' Hb Hb') as E;
      assert (u = v) by
        (eapply star_stop_det; try eassumption;
         [invert Ha'; simpl; eauto | invert Hb'; simpl; eauto]);
      subst; reflexivity
  end.
Qed.
End OneMatch.

Lemma lit_ci_starts x w : starts_in (lit_ci (x :: w)) (ci_char x).
Proof.
  intros [b a g] s' H. apply lit_ci_first in H.
  destruct H as (c & a' & -> & Hc). simpl. eauto.
Qed.

(** The grade pattern has at most one match from a given position. *)
Lemma grade_re_det : deterministic grade_re.
Proof.
  unfold grade_re.
  apply graded_det; [exact sep_not_space | exact letter_not_space |].
  apply (keyword_det _ _ (ci_char "s") (ci_char "g")).
  - intros s s1 s2. apply lit_ci_det.
  - intros s s1 s2. apply lit_ci_det.
  - apply (lit_ci_starts "s" (str "elf")).
  - apply (lit_ci_starts "g" (str "rade")).
  - exact s_not_g.
  - exact dash_space_not_g.
Qed.

Lemma extract_found (md_text : chars) m :
  re_search grade_re md_text = Some m ->
  exists i l,
    first_match grade_re md_text i m /\ only_match grade_re md_text i m /\
    group 2 m = Some [l] /\ ci_set "ABCDEF" l = true /\
    extract_self_grade_score md_text = grade_score (to_upper l) /\
    In (grade_score (to_upper l)) [40; 60; 75; 85; 95].
Proof.
  intros E. destruct (re_search_some _ _ _ E) as (i & Hm & Hleft).
  destruct (grade_re_letter _ _ (proj2 Hm)) as (l & Hg & Hl).
  destruct (mapping_letter l Hl) as [Hget Hin].
  exists i, l.
  split; [split; assumption|].
  split; [intros m' [_ Hm']; exact (grade_re_det _ _ _ Hm' (proj2 Hm))|].
  split; [exact Hg|]. split; [exact Hl|]. split; [|exact Hin].
  unfold extract_self_grade_score. rewrite E, Hg. exact Hget.
Qed.

Lemma extract_range (md_text : chars) :
  In (extract_self_grade_score md_text) [-1; 40; 60; 75; 85; 95].
Proof.
  destruct (re_search grade_re md_text) as [m|] eqn:E.
  - destruct (extract_found _ _ E) as (i & l & _ & _ & _ & _ & -> & Hin).
    right. exact Hin.
  - unfold extract_self_grade_score. rewrite E. left. reflexivity.
Qed.

Lemma extract_absent (md_text : chars) :
  re_search grade_re md_text = None ->
  extract_self_grade_score md_text = -1 /\ ~ found grade_re md_text.
Proof.
  intros E. split.
  - unfold extract_self_grade_score. rewrite E. reflexivity.
  - apply re_search_none. exact E.
Qed.

Lemma grade_values_not_sentinel (q : Q) :
  In q [40; 60; 75; 85; 95] -> ~ q == -1.
Proof.
  simpl. intros [<-|[<-|[<-|[<-|[<-|[]]]]]] H; discriminate H.
Qed.

(** C2, as the specification states it, fails: without a separator the
    code finds no grade, although the word and a letter of the table are
    there. *)
Lemma extract_self_grade_needs_separator :
  found spec_grade_re (str "Grade A") /\
  extract_self_grade_score (str "Grade A") = -1 /\
  ~ (extract_self_grade_score (str "Grade A") == -1 <->
     ~ found spec_grade_re (str "Grade A")).
Proof.
  assert (F : found spec_grade_re (str "Grade A")).
  { exists 0%nat. eexists. split; [simpl; lia|].
    apply match_at_sound. vm_compute. reflexivity. }
  split; [exact F|]. split; [reflexivity|].
  intros [H _]. apply H; [reflexivity | exact F].
Qed.

(** C2, amended. The separator [:] or [-] is required. The result is -1
    exactly when the pattern of the code matches nowhere; otherwise it is
    the score of the one letter captured by the only match at the leftmost
    matching offset; it always is one of -1, 40, 60, 75, 85, 95. *)
Theorem extract_self_grade_score_spec (md_text : chars) :
  (extract_self_grade_score md_text == -1 <-> ~ found grade_re md_text) /\
  In (extract_self_grade_score md_text) [-1; 40; 60; 75; 85; 95] /\
  (~ found grade_re md_text \/
   exists i m l,
     first_match grade_re md_text i m /\ only_match grade_re md_text i m /\
     group 2 m = Some [l] /\ ci_set "ABCDEF" l = true /\
     extract_self_grade_score md_text = grade_score (to_upper l)).
Proof.
  destruct (re_search grade_re md_text) as [m|] eqn:E.
  - destruct (extract_found _ _ E) as (i & l & Hf & Ho & Hg & Hl & Hx & Hin).
    split; [|split].
    + split.
      * intros H. exfalso. rewrite Hx in H.
        exact (grade_values_not_sentinel _ Hin H).
      * intros H. exfalso. apply H. exists i, m. exact (proj1 Hf).
    + apply extract_range.
    + right. exists i, m, l. repeat (split; [assumption|]). exact Hx.
  - destruct (extract_absent _ E) as [Hx Hn].
    split; [|split].
    + split; [intros _; exact Hn | intros _; rewrite Hx; reflexivity].
    + apply extract_range.
    + left. exact Hn.
Qed.

(** C4. Whatever the text, the final score lies between 1 and 100; so it
    does for any severity counts with any self-grade of the table or
    none. *)
Theorem final_score_in_range (md_text : chars) (sev : gmap string nat) :
  1 <= final_score_of md_text <= 100 /\
  Forall (fun g => 1 <= combine_scores g (severity_penalty_score sev) <= 100)
         [-1; 40; 60; 75; 85; 95].
Proof.
  split.
  - unfold final_score_of. apply combine_scores_bounds.
    + apply severity_penalty_score_bounds.
    + pose proof (extract_range md_text) as Hin. simpl in Hin.
      destruct Hin as [<-|[<-|[<-|[<-|[<-|[<-|[]]]]]]];
        solve [left; reflexivity
              | right; split; apply Qle_bool_imp_le; reflexivity].
  - repeat constructor;
      (apply combine_scores_bounds;
       [apply severity_penalty_score_bounds
       |solve [left; reflexivity
              | right; split; apply Qle_bool_imp_le; reflexivity]]).
Qed.

(** ** The severity counter *)

Lemma exec_lit_ci {A} w : forall (k : mstate -> option A) b a g,
  exec (lit_ci w) k (MState b a g) =
  if ci_prefix w a
  then k (MState (rev (take (length w) a) ++ b) (drop (length w) a) g)
  else None.
Proof.
  induction w as [|x w IH]; intros k b a g; simpl.
  - reflexivity.
  - destruct a as [|c a]; [reflexivity|]. simpl.
    destruct (ci_char x c); [|reflexivity]. simpl.
    rewrite IH. rewrite <- app_assoc. reflexivity.
Qed.

Lemma match_at_level w b a :
  match_at (Cat Bound (Cat (lit_ci w) Bound)) b a =
  if occ_here w b a
  then Some (MState (rev (take (length w) a) ++ b) (drop (length w) a) [])
  else None.
Proof.
  unfold match_at, occ_here. simpl. unfold at_boundary at 1, boundary. simpl.
  destruct (xorb (word_at (head b)) (word_at (head a))); [|reflexivity].
  rewrite exec_lit_ci. simpl.
  destruct (ci_prefix w a); [|reflexivity]. simpl.
  unfold at_boundary. simpl.
  destruct (xorb _ _); reflexivity.
Qed.

Lemma ci_prefix_length w : forall a,
  ci_prefix w a = true -> (length w <= length a)%nat.
Proof.
  induction w as [|x w IH]; intros [|c a]; simpl; try lia; try discriminate.
  intros H. apply andb_prop in H as [_ H]. apply IH in H. lia.
Qed.

Lemma is_word_to_lower c : is_word (to_lower c) = is_word c.
Proof. destruct c as [[] [] [] [] [] [] [] []]; reflexivity. Qed.

Lemma ci_char_word x c : ci_char x c = true -> is_word c = is_word x.
Proof.
  unfold ci_char. intros H. apply Ascii.eqb_eq in H.
  rewrite <- (is_word_to_lower c), H. apply is_word_to_lower.
Qed.

Lemma ci_prefix_word w : forall a,
  forallb is_word w = true -> ci_prefix w a = true ->
  forallb is_word (take (length w) a) = true.
Proof.
  induction w as [|x w IH]; intros [|c a]; simpl; try reflexivity; try discriminate.
  intros Hw H. apply andb_prop in Hw as [Hx Hw]. apply andb_prop in H as [Hc H].
  rewrite (ci_char_word _ _ Hc), Hx. simpl. apply IH; assumption.
Qed.

Section Counting.
Variable level : string.
Hypothesis level_nonempty : str level <> [].
Hypothesis level_word : forallb is_word (str level) = true.

Lemma findall_skip k : forall b a,
  (k <= length a)%nat ->
  findall_from (level_re level) k b a = findall_from (level_re level) 0 (rev (take k a) ++ b) (drop k a).
Proof.
  induction k as [|k IH]; intros b a Hk.
  - reflexivity.
  - destruct a as [|c a]; [simpl in Hk; lia|].
    simpl in Hk. change (findall_from (level_re level) (S k) b (c :: a))
      with (findall_from (level_re level) k (c :: b) a).
    rewrite IH by lia. simpl. rewrite <- app_assoc. reflexivity.
Qed.

(** Inside a run of word characters there is no boundary, so nothing
    occurs there. *)
Lemma count_skip k : forall b a,
  word_at (head b) = true ->
  forallb is_word (take k a) = true ->
  (k <= length a)%nat ->
  count_here (str level) b a = count_here (str level) (rev (take k a) ++ b) (drop k a).
Proof.
  induction k as [|k IH]; intros b a Hb Ha Hk.
  - reflexivity.
  - destruct a as [|c a]; [simpl in Hk; lia|].
    simpl in Hk, Ha. apply andb_prop in Ha as [Hc Ha].
    simpl count_here at 1.
    assert (E : occ_here (str level) b (c :: a) = false).
    { unfold occ_here, boundary. simpl. rewrite Hb, Hc. reflexivity. }
    rewrite E. simpl. rewrite <- app_assoc. simpl.
    apply IH; [exact Hc | exact Ha | lia].
Qed.

Lemma consumed_take n b a b' g g' :
  (n <= length a)%nat ->
  consumed (MState b a g) (MState b' (drop n a) g') = take n a.
Proof.
  intros Hn. unfold consumed. simpl. rewrite length_drop.
  f_equal. lia.
Qed.

(** [re.findall] counts the occurrences from a position on. *)
Lemma findall_count : forall a b,
  length (findall_from (level_re level) 0 b a) = count_here (str level) b a.
Proof.
  intros a. remember (length a) as n eqn:En. revert a En.
  induction n as [n IH] using lt_wf_ind. intros a En b.
  destruct a as [|c a].
  - simpl. unfold level_re. rewrite match_at_level.
    destruct (occ_here (str level) b []) eqn:E; [|reflexivity].
    exfalso. unfold occ_here in E.
    apply andb_prop in E as [E _]. apply andb_prop in E as [_ E].
    destruct (str level); [congruence | discriminate].
  - simpl findall_from. simpl count_here. unfold level_re. rewrite match_at_level.
    destruct (occ_here (str level) b (c :: a)) eqn:E.
    + pose proof E as E'. unfold occ_here in E'.
      apply andb_prop in E' as [E' _]. apply andb_prop in E' as [_ Hp].
      pose proof (ci_prefix_length _ _ Hp) as Hl.
      pose proof (ci_prefix_word _ _ level_word Hp) as Hw.
      rewrite consumed_take by exact Hl.
      rewrite length_take_le by exact Hl.
      destruct (length (str level)) as [|m] eqn:Em.
      { destruct (str level); [congruence | discriminate]. }
      simpl in Hl, Hw. apply andb_prop in Hw as [Hc Hw].
      simpl. f_equal. replace (m - 0)%nat with m by lia.
      rewrite findall_skip by lia.
      rewrite (IH (length (drop m a))) with (a := drop m a);
        [|subst n; simpl; rewrite length_drop; lia | reflexivity].
      symmetry. apply count_skip; [exact Hc | exact Hw | lia].
    + simpl. apply (IH (length a)); [subst n; simpl; lia | reflexivity].
Qed.
End Counting.

Lemma ci_prefix_lower w : forall a,
  ci_prefix w a = bool_decide (lower (take (length w) a) = lower w).
Proof.
  induction w as [|x w IH]; intros [|c a]; simpl; try reflexivity.
  rewrite IH. unfold ci_char.
  destruct (Ascii.eqb_spec (to_lower c) (to_lower x)) as [E|E]; simpl.
  - rewrite E. apply bool_decide_ext. split; [congruence|].
    intros [= H]. exact H.
  - symmetry. apply bool_decide_eq_false. intros [= H _]. contradiction.
Qed.

Lemma head_rev_take (t : chars) i :
  (i <= length t)%nat -> head (rev (take i t)) = char_before t i.
Proof.
  destruct i as [|j]; intros Hi; [reflexivity|]. simpl char_before.
  destruct (lookup_lt_is_Some_2 t j) as [c Hc]; [lia|].
  rewrite (take_S_r _ _ _ Hc), rev_app_distr. simpl. symmetry. exact Hc.
Qed.

Lemma head_drop_lookup (t : chars) i : head (drop i t) = t !! i.
Proof. rewrite head_lookup, lookup_drop. f_equal. lia. Qed.

Lemma occ_here_occurs_at w t i :
  w <> [] -> (i <= length t)%nat ->
  occ_here w (rev (take i t)) (drop i t) = occurs_at w t i.
Proof.
  intros Hw Hi. unfold occ_here, occurs_at.
  rewrite head_rev_take by exact Hi. rewrite !head_drop_lookup, lookup_drop.
  rewrite (andb_comm (bool_decide _)).
  destruct (boundary (char_before t i) (t !! i)); simpl; [|reflexivity].
  destruct (ci_prefix w (drop i t)) eqn:Hp.
  - pose proof (ci_prefix_length _ _ Hp) as Hl. rewrite length_drop in Hl.
    rewrite ci_prefix_lower in Hp. rewrite Hp. simpl.
    f_equal.
    rewrite <- rev_app_distr, take_take_drop.
    apply head_rev_take. lia.
  - rewrite ci_prefix_lower in Hp. rewrite Hp. reflexivity.
Qed.

Lemma filter_shift (f : nat -> bool) n :
  length (List.filter f (seq 1 n)) =
  length (List.filter (fun i => f (S i)) (seq 0 n)).
Proof.
  rewrite <- seq_shift. generalize (seq 0 n) as l.
  induction l as [|i l IH]; simpl; [reflexivity|].
  destruct (f (S i)); simpl; rewrite IH; reflexivity.
Qed.

Lemma count_here_filter w : forall a b,
  count_here w b a =
  length (List.filter (fun i => occ_here w (rev (take i a) ++ b) (drop i a))
            (seq 0 (S (length a)))).
Proof.
  induction a as [|c a IH]; intros b.
  - simpl. destruct (occ_here w b []); reflexivity.
  - simpl count_here. rewrite IH.
    change (seq 0 (S (length (c :: a)))) with (0%nat :: seq 1 (S (length a))).
    set (f := fun i => occ_here w (rev (take i (c :: a)) ++ b) (drop i (c :: a))).
    assert (E : length (List.filter f (seq 1 (S (length a)))) =
                length (List.filter
                  (fun i => occ_here w (rev (take i a) ++ c :: b) (drop i a))
                  (seq 0 (S (length a))))).
    { rewrite filter_shift. f_equal. apply List.filter_ext. intros i.
      unfold f. simpl. rewrite <- app_assoc. reflexivity. }
    rewrite <- E. cbn [List.filter].
    change (f 0%nat) with (occ_here w b (c :: a)).
    destruct (occ_here w b (c :: a)); reflexivity.
Qed.

Lemma count_here_occurrences w t :
  w <> [] -> count_here w [] t = occurrences w t.
Proof.
  intros Hw. rewrite count_here_filter. unfold occurrences. f_equal.
  apply List.filter_ext_in. intros i Hi. apply in_seq in Hi.
  rewrite app_nil_r. apply occ_here_occurs_at; [exact Hw | lia].
Qed.

(** [len(re.findall(...))] is the number of delimited occurrences. *)
Lemma findall_occurrences level t :
  str level <> [] -> forallb is_word (str level) = true ->
  length (re_findall (level_re level) t) = occurrences (str level) t.
Proof.
  intros Hn Hw. unfold re_findall.
  rewrite (findall_count level Hn Hw). apply count_here_occurrences. exact Hn.
Qed.

Lemma count_severities_unfold (md_text : chars) :
  count_severities md_text =
  <["low"%string := length (re_findall (level_re "low") md_text)]>
   (<["medium"%string := length (re_findall (level_re "medium") md_text)]>
    (<["high"%string := length (re_findall (level_re "high") md_text)]>
     (<["critical"%string := length (re_findall (level_re "critical") md_text)]>
      (<["critical"%string := 0%nat]> (<["high"%string := 0%nat]>
        (<["medium"%string := 0%nat]> (<["low"%string := 0%nat]> ∅))))))).
Proof. reflexivity. Qed.

(** C5. The result has exactly the four keys; each value is the number of
    offsets at which the level word occurs, in any case, between two word
    boundaries; the empty text gives four zeros. *)
Theorem count_severities_spec (md_text : chars) :
  dom (count_severities md_text)
    = ({["critical"; "high"; "medium"; "low"]} : gset string) /\
  Forall (fun level =>
            count_severities md_text !! level
            = Some (occurrences (str level) md_text))
         severity_levels /\
  Forall (fun level => count_severities [] !! level = Some 0%nat) severity_levels.
Proof.
  split; [|split].
  - rewrite count_severities_unfold. rewrite !dom_insert_L, dom_empty_L.
    set_solver.
  - rewrite count_severities_unfold.
    repeat constructor; simplify_map_eq;
      f_equal; apply findall_occurrences; (discriminate || reflexivity).
  - repeat constructor; reflexivity.
Qed.

(** ** The Markdown renderer *)

Lemma replace_one (x : ascii) (new s : chars) :
  replace_from [x] new 0 s =
  flat_map (fun c => if Ascii.eqb x c then new else [c]) s.
Proof.
  induction s as [|c s IH]; [reflexivity|].
  cbn [replace_from starts_with flat_map]. rewrite andb_true_r.
  destruct (Ascii.eqb x c); simpl; rewrite IH; reflexivity.
Qed.

(** The three replacements in a row escape each character on its own:
    [&] goes first, so the [&] of an entity is not escaped again. *)
Lemma replace_chain_escape (s : chars) :
  replace ">" "&gt;" (replace "<" "&lt;" (replace "&" "&amp;" s)) = html_escape s.
Proof.
  unfold replace. change (str "&") with ["&"%char].
  change (str "<") with ["<"%char]. change (str ">") with [">"%char].
  rewrite !replace_one. unfold html_escape.
  induction s as [|c s IH]; [reflexivity|].
  cbn [flat_map]. rewrite !flat_map_app, IH. f_equal.
  unfold escape_char.
  destruct c as [[] [] [] [] [] [] [] []]; reflexivity.
Qed.

(** C8. When the renderer is missing or raises, the result is the text with
    [&], [<] and [>] escaped, inside a [pre] element; the record of the
    report carries it. *)
Theorem render_markdown_fallback (disk : FileSystem) (markdown : renderer)
    (p : Path) (md_text : chars) :
  renderer_fails markdown md_text ->
  render_markdown markdown md_text
    = str "<pre>" ++ html_escape md_text ++ str "</pre>" /\
  html (load_one disk markdown p md_text)
    = str "<pre>" ++ html_escape md_text ++ str "</pre>".
Proof.
  intros H.
  assert (E : render_markdown markdown md_text
              = str "<pre>" ++ html_escape md_text ++ str "</pre>").
  { unfold render_markdown. rewrite replace_chain_escape.
    destruct markdown as [render|]; [|reflexivity].
    simpl in H. rewrite H. reflexivity. }
  split; [exact E|]. unfold load_one. simpl. exact E.
Qed.

Lemma render_markdown_fallback_witness :
  renderer_fails None (str "a<b>&c") /\
  render_markdown None (str "a<b>&c") = str "<pre>a&lt;b&gt;&amp;c</pre>".
Proof.
  split; [exact I|].
  exact (proj1 (render_markdown_fallback (mkFS (fun _ => None) (fun _ => [])) None []
                  (str "a<b>&c") I)).
Defined.

(** ** The order of paths *)

Section LexOrder.
Context {A : Type}.
Variable cmp : A -> A -> comparison.
Hypothesis cmp_eq : forall x y, cmp x y = Eq -> x = y.
Hypothesis cmp_refl : forall x, cmp x x = Eq.
Hypothesis cmp_antisym : forall x y, cmp y x = CompOpp (cmp x y).
Hypothesis cmp_trans : forall x y z, cmp x y = Lt -> cmp y z = Lt -> cmp x z = Lt.

Lemma lex_compare_eq u : forall v, lex_compare cmp u v = Eq -> u = v.
Proof.
  induction u as [|x u IH]; intros [|y v]; simpl; try congruence.
  destruct (cmp x y) eqn:E; try congruence.
  intros H. apply cmp_eq in E. apply IH in H. congruence.
Qed.

Lemma lex_compare_refl u : lex_compare cmp u u = Eq.
Proof. induction u as [|x u IH]; simpl; [reflexivity|]. rewrite cmp_refl. exact IH. Qed.

Lemma lex_compare_antisym u : forall v,
  lex_compare cmp v u = CompOpp (lex_compare cmp u v).
Proof.
  induction u as [|x u IH]; intros [|y v]; simpl; try reflexivity.
  rewrite (cmp_antisym x y). destruct (cmp x y); simpl; auto.
Qed.

Lemma lex_compare_trans u : forall v t,
  lex_compare cmp u v = Lt -> lex_compare cmp v t = Lt -> lex_compare cmp u t = Lt.
Proof.
  induction u as [|x u IH]; intros [|y v] [|z t]; simpl; try congruence.
  destruct (cmp x y) eqn:Exy; try congruence;
    destruct (cmp y z) eqn:Eyz; try congruence; intros H1 H2.
  - apply cmp_eq in Exy, Eyz. subst. rewrite cmp_refl. eapply IH; eassumption.
  - apply cmp_eq in Exy. subst. rewrite Eyz. reflexivity.
  - apply cmp_eq in Eyz. subst. rewrite Exy. reflexivity.
  - rewrite (cmp_trans _ _ _ Exy Eyz). reflexivity.
Qed.
End LexOrder.

Lemma ascii_compare_refl (a : ascii) : Ascii.compare a a = Eq.
Proof. apply N.compare_refl. Qed.

Lemma ascii_compare_trans (a b c : ascii) :
  Ascii.compare a b = Lt -> Ascii.compare b c = Lt -> Ascii.compare a c = Lt.
Proof. unfold Ascii.compare. rewrite !N.compare_lt_iff. lia. Qed.

Lemma text_compare_eq (u v : chars) : lex_compare Ascii.compare u v = Eq -> u = v.
Proof. apply lex_compare_eq. exact Ascii.compare_eq_iff. Qed.

Lemma text_compare_refl (u : chars) : lex_compare Ascii.compare u u = Eq.
Proof. apply lex_compare_refl. exact ascii_compare_refl. Qed.

Lemma text_compare_antisym (u v : chars) :
  lex_compare Ascii.compare v u = CompOpp (lex_compare Ascii.compare u v).
Proof. apply lex_compare_antisym. intros x y. apply Ascii.compare_antisym. Qed.

Lemma text_compare_trans (u v t : chars) :
  lex_compare Ascii.compare u v = Lt -> lex_compare Ascii.compare v t = Lt ->
  lex_compare Ascii.compare u t = Lt.
Proof.
  apply lex_compare_trans.
  - exact Ascii.compare_eq_iff.
  - exact ascii_compare_refl.
  - exact ascii_compare_trans.
Qed.

Lemma path_compare_eq (p q : Path) : path_compare p q = Eq -> p = q.
Proof. apply lex_compare_eq. exact text_compare_eq. Qed.

Lemma path_compare_antisym (p q : Path) :
  path_compare q p = CompOpp (path_compare p q).
Proof. apply lex_compare_antisym. exact text_compare_antisym. Qed.

Lemma path_compare_trans (p q t : Path) :
  path_compare p q = Lt -> path_compare q t = Lt -> path_compare p t = Lt.
Proof.
  apply lex_compare_trans.
  - exact text_compare_eq.
  - exact text_compare_refl.
  - exact text_compare_trans.
Qed.

Lemma path_le_total : Total path_le.
Proof.
  intros p q. unfold path_le. rewrite (path_compare_antisym p q).
  destruct (path_compare p q); simpl; [left|left|right]; congruence.
Qed.

Lemma path_le_trans : Transitive path_le.
Proof.
  intros p q t. unfold path_le.
  destruct (path_compare p q) eqn:E1; [| |congruence];
    destruct (path_compare q t) eqn:E2; try congruence; intros _ _.
  - apply path_compare_eq in E1, E2. subst.
    unfold path_compare. rewrite lex_compare_refl; [congruence|exact text_compare_refl].
  - apply path_compare_eq in E1. subst. rewrite E2. congruence.
  - apply path_compare_eq in E2. subst. rewrite E1. congruence.
  - rewrite (path_compare_trans _ _ _ E1 E2). congruence.
Qed.

Lemma path_le_antisym : AntiSymm (=) path_le.
Proof.
  intros p q. unfold path_le. rewrite (path_compare_antisym p q).
  destruct (path_compare p q) eqn:E; simpl; try congruence.
  intros _ _. apply path_compare_eq. exact E.
Qed.

(** [sorted] gives the one ascending arrangement of the paths. *)
Lemma sorted_Sorted (files : list Path) : Sorted path_le (sorted files).
Proof. apply Sorted_merge_sort. exact path_le_total. Qed.

Lemma sorted_Permutation (files : list Path) : sorted files ≡ₚ files.
Proof. apply merge_sort_Permutation. Qed.

Lemma sorted_order_free (files files' : list Path) :
  files ≡ₚ files' -> sorted files = sorted files'.
Proof.
  intros H.
  apply (@Sorted_unique _ path_le path_le_trans path_le_antisym);
    try apply sorted_Sorted.
  rewrite !sorted_Permutation. exact H.
Qed.

(** ** The loader *)

Lemma load_loop disk markdown (l : list Path) : forall acc,
  foldl (fun out p =>
           match read_text disk p with
           | None => out
           | Some md => out ++ [load_one disk markdown p md]
           end) acc l
  = acc ++ omap (record_of disk markdown) l.
Proof.
  induction l as [|p l IH]; intros acc; simpl.
  - rewrite app_nil_r. reflexivity.
  - rewrite IH. unfold record_of at 2.
    destruct (read_text disk p) as [md|]; simpl; [|reflexivity].
    rewrite <- app_assoc. reflexivity.
Qed.

(** The loop of [load_reports] keeps one record for each source it can
    read, in the order of the sorted paths. *)
Lemma load_reports_omap disk markdown files :
  load_reports disk markdown files = omap (record_of disk markdown) (sorted files).
Proof. unfold load_reports. rewrite load_loop. reflexivity. Qed.

Lemma omap_record_length disk markdown (l : list Path) :
  length (omap (record_of disk markdown) l) = length (List.filter (readable disk) l).
Proof.
  induction l as [|p l IH]; [reflexivity|].
  change (omap (record_of disk markdown) (p :: l))
    with (match record_of disk markdown p with
          | Some y => y :: omap (record_of disk markdown) l
          | None => omap (record_of disk markdown) l
          end).
  cbn [List.filter]. unfold record_of at 1, readable at 1.
  destruct (read_text disk p); cbn [fmap option_fmap option_map length];
    rewrite IH; reflexivity.
Qed.

Lemma omap_record_names disk markdown (l : list Path) :
  map filename (omap (record_of disk markdown) l)
  = map path_name (List.filter (readable disk) l).
Proof.
  induction l as [|p l IH]; [reflexivity|].
  change (omap (record_of disk markdown) (p :: l))
    with (match record_of disk markdown p with
          | Some y => y :: omap (record_of disk markdown) l
          | None => omap (record_of disk markdown) l
          end).
  cbn [List.filter]. unfold record_of at 1, readable at 1.
  destruct (read_text disk p); cbn [fmap option_fmap option_map map];
    rewrite IH; reflexivity.
Qed.

(** C7. A source that cannot be read is skipped and the others are loaded:
    the result holds one record for each readable source, and no more. *)
Theorem load_reports_skips_unreadable (disk : FileSystem) (markdown : renderer)
    (files : list Path) :
  load_reports disk markdown files = omap (record_of disk markdown) (sorted files) /\
  length (load_reports disk markdown files)
    = length (List.filter (readable disk) files) /\
  map filename (load_reports disk markdown files)
    = map path_name (List.filter (readable disk) (sorted files)).
Proof.
  split; [apply load_reports_omap|]. split.
  - rewrite load_reports_omap.
    rewrite <- omap_record_length with (markdown := markdown).
    apply Permutation_length. rewrite sorted_Permutation. reflexivity.
  - rewrite load_reports_omap. apply omap_record_names.
Qed.

(** C10. The records come in the ascending order of the paths, compared
    component by component, whatever the order of enumeration. *)
Theorem load_reports_order_free (disk : FileSystem) (markdown : renderer)
    (files files' : list Path) :
  files ≡ₚ files' ->
  load_reports disk markdown files' = load_reports disk markdown files /\
  Sorted path_le (sorted files) /\
  sorted files ≡ₚ files /\
  load_reports disk markdown files = omap (record_of disk markdown) (sorted files).
Proof.
  intros H. split; [|split; [|split]].
  - rewrite !load_reports_omap, (sorted_order_free _ _ H). reflexivity.
  - apply sorted_Sorted.
  - apply sorted_Permutation.
  - apply load_reports_omap.
Qed.

Lemma load_reports_order_free_witness :
  [[str "b.md"]; [str "a.md"]] ≡ₚ [[str "a.md"]; [str "b.md"]] /\
  load_reports (mkFS (fun _ => Some (str "# T")) (fun _ => [])) None
    [[str "a.md"]; [str "b.md"]]
  = load_reports (mkFS (fun _ => Some (str "# T")) (fun _ => [])) None
    [[str "b.md"]; [str "a.md"]].
Proof.
  split; [apply perm_swap|].
  exact (proj1 (load_reports_order_free
                  (mkFS (fun _ => Some (str "# T")) (fun _ => [])) None
                  [[str "b.md"]; [str "a.md"]] [[str "a.md"]; [str "b.md"]]
                  (perm_swap _ _ _))).
Defined.

(** ** The list filter of the dashboard *)

Lemma filter_twice {A} (f g : A -> bool) (l : list A) :
  List.filter g (List.filter f l) = List.filter (fun x => f x && g x) l.
Proof.
  induction l as [|x l IH]; [reflexivity|]. simpl.
  destruct (f x); simpl; [|exact IH].
  destruct (g x); rewrite IH; reflexivity.
Qed.

Lemma js_round_nearest (x : Q) :
  inject_Z (js_round x) - (1 # 2) <= x < inject_Z (js_round x) + (1 # 2).
Proof.
  unfold js_round.
  pose proof (Qfloor_le (x + (1 # 2))) as Hl.
  pose proof (Qlt_floor (x + (1 # 2))) as Hu.
  rewrite inject_Z_plus in Hu. change (inject_Z 1) with 1 in Hu.
  split; lra.
Qed.

Lemma chip_pred_nonzero it c :
  chip_pred it c = true <-> default 0%nat (severity it !! c) <> 0%nat.
Proof. unfold chip_pred. rewrite Nat.ltb_lt. lia. Qed.

Lemma keeps_bool q minScore chips it :
  text_pred q it && score_pred minScore it && existsb (chip_pred it) chips = true
  <-> keeps q minScore chips it.
Proof.
  unfold keeps, text_pred, score_pred.
  rewrite !andb_true_iff, orb_true_iff, Z.leb_le, existsb_exists.
  split.
  - intros [[Ht Hs] (c & Hc & Hp)]. repeat split; try assumption.
    exists c. split; [exact Hc|]. apply chip_pred_nonzero. exact Hp.
  - intros (Ht & Hs & c & Hc & Hp). repeat split; try assumption.
    exists c. split; [exact Hc|]. apply chip_pred_nonzero. exact Hp.
Qed.

(** C9. With some level selected, the list keeps exactly the records that
    pass the three tests together: the query is part of the title or of
    the file name, the rounded score reaches the minimum, and one selected
    level at least has a count other than zero. The rounded score is an
    integer nearest to the score. *)
Theorem renderList_filter_spec (DATA : list ReportItem) (query : chars)
    (minScore : Z) (chips : list string) :
  chips <> [] ->
  renderList_filter DATA query minScore chips
    = List.filter (fun it => text_pred (lower query) it
                            && score_pred minScore it
                            && existsb (chip_pred it) chips) DATA /\
  (forall it, In it (renderList_filter DATA query minScore chips)
              <-> In it DATA /\ keeps (lower query) minScore chips it) /\
  (forall it, inject_Z (js_round (final_score it)) - (1 # 2) <= final_score it
              < inject_Z (js_round (final_score it)) + (1 # 2)).
Proof.
  intros Hc.
  assert (E : renderList_filter DATA query minScore chips
    = List.filter (fun it => text_pred (lower query) it
                            && score_pred minScore it
                            && existsb (chip_pred it) chips) DATA).
  { unfold renderList_filter. destruct chips as [|c chips]; [congruence|].
    rewrite !filter_twice. apply List.filter_ext. intros it.
    rewrite andb_assoc. reflexivity. }
  split; [exact E|]. split.
  - intros it. rewrite E, filter_In, keeps_bool. reflexivity.
  - intros it. apply js_round_nearest.
Qed.

Lemma renderList_filter_spec_witness :
  ["high"%string] <> [] /\
  renderList_filter
    [ mkReportItem (str "a.md") (str "Alpha") [] [] {["high"%string := 2%nat]}
        (-1) 70 70 [];
      mkReportItem (str "b.md") (str "Beta") [] [] {["low"%string := 1%nat]}
        95 98 (982 # 10) [] ]
    (str "A") 45 ["high"%string]
  = [ mkReportItem (str "a.md") (str "Alpha") [] [] {["high"%string := 2%nat]}
        (-1) 70 70 [] ].
Proof.
  split; [discriminate|].
  rewrite (proj1 (renderList_filter_spec _ (str "A") 45 ["high"%string]
                    ltac:(discriminate))).
  reflexivity.
Defined.

(** ** The title of a report *)

Lemma title_of_no_heading (md : chars) (p : Path) :
  re_search heading_re md = None -> title_of md p = stem p.
Proof. intros H. unfold title_of. rewrite H. reflexivity. Qed.

(** The fallback never is empty for a file that has a name. *)
Lemma stem_nonempty (p : Path) : path_name p <> [] -> stem p <> [].
Proof.
  unfold stem. intros H.
  destruct (rfind "." (path_name p)) as [i|]; [|exact H].
  destruct ((0 <? i) && (i <? length (path_name p) - 1))%nat eqn:E; [|exact H].
  apply andb_prop in E as [E _]. apply Nat.ltb_lt in E.
  destruct (path_name p) as [|c n]; [congruence|].
  destruct i as [|i]; [lia|]. discriminate.
Qed.

(** C6. A heading line that holds blanks only after its mark is matched by
    the heading pattern, and its content is trimmed to nothing: the record
    of such a report has an empty title, and the file name is not used. *)
Theorem title_of_blank_heading (disk : FileSystem) (markdown : renderer) (p : Path) :
  title_of (str "#  ") p = [] /\
  title (load_one disk markdown p (str "#  ")) = [] /\
  map title
    (load_reports (mkFS (fun _ => Some (str "#  ")) (fun _ => [])) markdown
       [[str "r.md"]]) = [[]] /\
  stem [str "r.md"] = str "r".
Proof. repeat split; vm_compute; reflexivity. Qed.

(** ** The scenarios of the specification *)

Example scenario_grade_only :
  severity_penalty_score (count_severities (str "Grade: A")) = 100 /\
  extract_self_grade_score (str "Grade: A") = 95 /\
  final_score_of (str "Grade: A") == 98.
Proof. repeat split; vm_compute; reflexivity. Qed.

Example scenario_three_critical :
  severity_penalty_score
    (count_severities (str "critical, Critical and CRITICAL")) = 40 /\
  final_score_of (str "critical, Critical and CRITICAL") == 40.
Proof. repeat split; vm_compute; reflexivity. Qed.

Example scenario_high_and_low :
  final_score_of
    (str "high high high high high low low low low low low low low low low")
  == 45.
Proof. vm_compute. reflexivity. Qed.

Example grade_examples :
  extract_self_grade_score (str "Self-Grade: b+") = 85 /\
  extract_self_grade_score (str "my upgrade: b, grade - c") = 75 /\
  extract_self_grade_score (str "Grade: Excellent") = -1 /\
  extract_self_grade_score (str "") = -1.
Proof. repeat split; vm_compute; reflexivity. Qed.

Example count_examples :
  map (fun level =>
         count_severities
           (str "High, high-risk highly CRITICAL low_low low. Medium") !! level)
      severity_levels
  = [Some 1%nat; Some 2%nat; Some 1%nat; Some 1%nat].
Proof. vm_compute. reflexivity. Qed.

(** ** Sorting the list by score *)

Section StableSort.
Context {A : Type}.
Variable after : A -> A -> bool.

Lemma insert_by_Permutation x l : insert_by after x l ≡ₚ x :: l.
Proof.
  induction l as [|y l IH]; simpl; [reflexivity|].
  destruct (after x y); [|reflexivity].
  rewrite IH. apply perm_swap.
Qed.

Lemma sort_by_Permutation l : sort_by after l ≡ₚ l.
Proof.
  induction l as [|x l IH]; simpl; [reflexivity|].
  rewrite insert_by_Permutation, IH. reflexivity.
Qed.

(** Elements that pass a test keep their order, as long as none of them
    has to come after another. *)
Lemma insert_by_filter (f : A -> bool) x l :
  (forall y, In y l -> f x = true -> f y = true -> after x y = false) ->
  List.filter f (insert_by after x l) = List.filter f (x :: l).
Proof.
  induction l as [|y l IH]; intros H; [reflexivity|].
  simpl insert_by. destruct (after x y) eqn:E.
  - cbn [List.filter]. rewrite IH by (intros z Hz; apply H; right; exact Hz).
    cbn [List.filter].
    destruct (f x) eqn:Ex; [|reflexivity].
    destruct (f y) eqn:Ey; [|reflexivity].
    rewrite (H y (or_introl eq_refl) eq_refl Ey) in E. discriminate.
  - reflexivity.
Qed.

Lemma sort_by_filter (f : A -> bool) l :
  (forall x y, f x = true -> f y = true -> after x y = false) ->
  List.filter f (sort_by after l) = List.filter f l.
Proof.
  intros H. induction l as [|x l IH]; [reflexivity|].
  simpl sort_by. rewrite insert_by_filter by (intros y _; apply H).
  cbn [List.filter]. rewrite IH. reflexivity.
Qed.

Variable R : A -> A -> Prop.
Hypothesis R_total : forall x y, after x y = true -> R y x.
Hypothesis R_not_after : forall x y, after x y = false -> R x y.
Hypothesis R_trans : forall x y z, R x y -> R y z -> R x z.

Lemma insert_by_Sorted x l :
  StronglySorted R l -> StronglySorted R (insert_by after x l).
Proof.
  induction 1 as [|y l Hl IH Hy]; simpl.
  - repeat constructor.
  - destruct (after x y) eqn:E.
    + constructor; [exact IH|].
      rewrite Forall_forall. intros z Hz.
      apply list_elem_of_In in Hz.
      apply (Permutation_in _ (insert_by_Permutation x l)) in Hz.
      destruct Hz as [<-|Hz]; [apply R_total; exact E|].
      rewrite Forall_forall in Hy. apply Hy, list_elem_of_In, Hz.
    + constructor; [constructor; assumption|].
      constructor; [apply R_not_after; exact E|].
      eapply Forall_impl; [exact Hy|].
      intros z Hz. eapply R_trans; [apply R_not_after; exact E | exact Hz].
Qed.

Lemma sort_by_Sorted l : StronglySorted R (sort_by after l).
Proof.
  induction l as [|x l IH]; simpl; [constructor|].
  apply insert_by_Sorted. exact IH.
Qed.
End StableSort.

Lemma score_after_spec (a b : ReportItem) :
  negb (Qle_bool (final_score b - final_score a) 0) = true
  <-> final_score a < final_score b.
Proof.
  rewrite negb_true_iff. split.
  - intros H. destruct (Qlt_le_dec (final_score a) (final_score b)) as [L|L]; [exact L|].
    assert (E : Qle_bool (final_score b - final_score a) 0 = true)
      by (apply Qle_bool_iff; lra).
    congruence.
  - intros H. destruct (Qle_bool (final_score b - final_score a) 0) eqn:E; [|reflexivity].
    apply Qle_bool_iff in E. lra.
Qed.

(** X1. Sorted by score, the list of [renderList] holds the records the
    filter kept, from the highest score to the lowest, and records of equal
    score stay in the order they had. *)
Theorem renderList_by_score_spec (DATA : list ReportItem) (query : chars)
    (minScore : Z) (chips : list string) (x : Q) :
  renderList_by_score DATA query minScore chips
    ≡ₚ renderList_filter DATA query minScore chips /\
  StronglySorted (fun a b => final_score b <= final_score a)
    (renderList_by_score DATA query minScore chips) /\
  List.filter (fun it => Qeq_bool (final_score it) x)
    (renderList_by_score DATA query minScore chips)
  = List.filter (fun it => Qeq_bool (final_score it) x)
      (renderList_filter DATA query minScore chips).
Proof.
  unfold renderList_by_score, js_sort. split; [|split].
  - apply sort_by_Permutation.
  - apply sort_by_Sorted.
    + intros a b H. apply score_after_spec in H. lra.
    + intros a b H.
      destruct (Qlt_le_dec (final_score a) (final_score b)) as [L|L]; [|exact L].
      apply score_after_spec in L. congruence.
    + intros a b c H1 H2. lra.
  - apply sort_by_filter. intros a b Ha Hb.
    apply Qeq_bool_iff in Ha, Hb.
    destruct (negb (Qle_bool (final_score b - final_score a) 0)) eqn:E; [|reflexivity].
    apply score_after_spec in E. lra.
Qed.

(** ** The data of the page *)

Lemma replace_script_step (c : ascii) (s : chars) :
  replace "</" "<\/" (c :: s) =
  match s with
  | d :: s' =>
      if Ascii.eqb "<" c && Ascii.eqb "/" d
      then "<"%char :: "\"%char :: "/"%char :: replace "</" "<\/" s'
      else c :: replace "</" "<\/" s
  | [] => [c]
  end.
Proof.
  unfold replace. change (str "</") with ["<"%char; "/"%char].
  change (str "<\/") with ["<"%char; "\"%char; "/"%char].
  cbn [replace_from starts_with length Nat.sub app].
  destruct s as [|d s'].
  - rewrite andb_false_r. reflexivity.
  - rewrite andb_true_r.
    destruct (Ascii.eqb "<" c && Ascii.eqb "/" d); reflexivity.
Qed.

Lemma replace_script_head (s : chars) :
  head (replace "</" "<\/" s) = head s.
Proof.
  destruct s as [|c s]; [reflexivity|].
  rewrite replace_script_step. destruct s as [|d s]; [reflexivity|].
  destruct (Ascii.eqb "<" c && Ascii.eqb "/" d) eqn:E; [|reflexivity].
  apply andb_prop in E as [E _]. apply Ascii.eqb_eq in E. subst c. reflexivity.
Qed.

Lemma includes_cons (c : ascii) (s q : chars) :
  includes (c :: s) q = starts_with q (c :: s) || includes s q.
Proof. reflexivity. Qed.

Lemma starts_with_script (c : ascii) (s : chars) :
  starts_with (str "</") (c :: s) =
  Ascii.eqb "<" c && match head s with Some d => Ascii.eqb "/" d | None => false end.
Proof.
  change (str "</") with ["<"%char; "/"%char]. cbn [starts_with].
  destruct s as [|d s]; cbn [starts_with head]; [reflexivity|].
  rewrite andb_true_r. reflexivity.
Qed.

(** After [.replace("</", "<\\/")] no [</] is left. *)
Lemma replace_script_safe (s : chars) :
  includes (replace "</" "<\/" s) (str "</") = false.
Proof.
  remember (length s) as n eqn:En. revert s En.
  induction n as [n IH] using lt_wf_ind. intros s En.
  destruct s as [|c s]; [reflexivity|].
  rewrite replace_script_step. destruct s as [|d s'].
  - rewrite includes_cons, starts_with_script. cbn [head].
    rewrite andb_false_r. reflexivity.
  - destruct (Ascii.eqb "<" c && Ascii.eqb "/" d) eqn:E.
    + assert (H : includes (replace "</" "<\/" s') (str "</") = false).
      { apply (IH (length s')); [subst n; simpl; lia | reflexivity]. }
      rewrite !includes_cons, !starts_with_script, H. cbn [head].
      change (Ascii.eqb "/" "\") with false. change (Ascii.eqb "<" "\") with false.
      change (Ascii.eqb "<" "/") with false.
      rewrite andb_false_r. reflexivity.
    + assert (H : includes (replace "</" "<\/" (d :: s')) (str "</") = false).
      { apply (IH (length (d :: s'))); [subst n; simpl; lia | reflexivity]. }
      rewrite includes_cons, starts_with_script, H, replace_script_head.
      cbn [head]. rewrite orb_false_r. exact E.
Qed.

(** X2. The page is the template around the title, the style sheet and the
    data; the data holds no [</], so nothing in a report can close the
    script element that carries it. *)
Theorem build_dashboard_html_script_safe (dumps : list ReportItem -> chars)
    (HTML_TMPL : Template) (CSS : chars) (items : list ReportItem) (title : chars) :
  build_dashboard_html dumps HTML_TMPL CSS items title
    = tmpl_head HTML_TMPL ++ title ++ tmpl_style HTML_TMPL ++ CSS
      ++ tmpl_data HTML_TMPL ++ data_json dumps items ++ tmpl_tail HTML_TMPL /\
  includes (data_json dumps items) (str "</") = false.
Proof. split; [reflexivity | apply replace_script_safe]. Qed.

(** ** What the scores mean on the page *)

Lemma sev_get_count (md_text : chars) (level : string) :
  In level severity_levels ->
  sev_get (count_severities md_text) level
  = inject_Z (Z.of_nat (occurrences (str level) md_text)).
Proof.
  intros H. unfold sev_get. rewrite count_severities_unfold.
  simpl in H. destruct H as [<-|[<-|[<-|[<-|[]]]]]; simplify_map_eq;
    simpl; do 2 f_equal; apply findall_occurrences; (discriminate || reflexivity).
Qed.

Lemma py_min_nonneg (a b : Q) : 0 <= a -> 0 <= b -> 0 <= py_min a b.
Proof. intros Ha Hb. destruct (py_min_cases a b) as [->| ->]; assumption. Qed.

Lemma py_min_ge (a b k : Q) : k <= a -> k <= b -> k <= py_min a b.
Proof. intros Ha Hb. destruct (py_min_cases a b) as [->| ->]; assumption. Qed.

Lemma sev_get_nonneg sev level : 0 <= sev_get sev level.
Proof.
  unfold sev_get. change 0 with (inject_Z 0). rewrite <- Zle_Qle. lia.
Qed.

(** One critical finding costs 25 points at least. *)
Lemma severity_penalty_score_critical (sev : gmap string nat) :
  1 <= sev_get sev "critical" -> severity_penalty_score sev <= 75.
Proof.
  intros Hc. unfold severity_penalty_score.
  pose proof (sev_get_nonneg sev "high") as Hh.
  pose proof (sev_get_nonneg sev "medium") as Hm.
  pose proof (sev_get_nonneg sev "low") as Hl.
  assert (H1 : 25 <= py_min (sev_get sev "critical" * 25) 60)
    by (apply py_min_ge; lra).
  assert (H2 : 0 <= py_min (sev_get sev "high" * 15) 45)
    by (apply py_min_nonneg; lra).
  assert (H3 : 0 <= py_min (sev_get sev "medium" * 7) 35)
    by (apply py_min_nonneg; lra).
  assert (H4 : 0 <= py_min (sev_get sev "low" * 2) 10)
    by (apply py_min_nonneg; lra).
  set (base := 100 - _ - _ - _ - _).
  assert (Hb : base <= 75) by (unfold base; lra).
  pose proof (py_min_le_r 100 base) as Hr.
  destruct (py_max_cases 1 (py_min 100 base)) as [->| ->]; lra.
Qed.

Lemma py_round1_le (x : Q) (h : Z) :
  1 <= x -> x <= inject_Z h / 10 -> py_round1 x <= inject_Z h / 10.
Proof.
  intros Hl Hh. unfold py_round1.
  destruct (round_half_even_bounds (x * 10) 10 h) as [_ H].
  { change (inject_Z 10) with 10. split; [lra|].
    assert (E : inject_Z h == inject_Z h / 10 * 10) by field. lra. }
  rewrite Zle_Qle in H.
  apply Qle_shift_div_r; [lra|].
  assert (E : inject_Z h / 10 * 10 == inject_Z h) by field. lra.
Qed.

Lemma grade_cases (md_text : chars) :
  extract_self_grade_score md_text = -1 \/
  40 <= extract_self_grade_score md_text <= 95.
Proof.
  pose proof (extract_range md_text) as H. simpl in H.
  destruct H as [<-|[<-|[<-|[<-|[<-|[<-|[]]]]]]];
    solve [left; reflexivity
          | right; split; apply Qle_bool_imp_le; reflexivity].
Qed.

Lemma badgeColor_ok (score : Q) : badgeColor score = ok <-> 85 <= score.
Proof.
  unfold badgeColor. destruct (Qle_bool 85 score) eqn:E.
  - apply Qle_bool_iff in E. tauto.
  - split.
    + destruct (Qle_bool 70 score); [discriminate|].
      destruct (Qle_bool 55 score); discriminate.
    + intros H. apply Qle_bool_iff in H. congruence.
Qed.

(** X3. A report that names a critical finding, even once, never scores
    above 83, whatever grade it gives itself: its badge never takes the
    colour kept for scores from 85 up. *)
Theorem critical_never_ok (md_text : chars) :
  (0 < occurrences (str "critical") md_text)%nat ->
  final_score_of md_text <= 83 /\ badgeColor (final_score_of md_text) <> ok.
Proof.
  intros Hc.
  assert (Hs : severity_penalty_score (count_severities md_text) <= 75).
  { apply severity_penalty_score_critical.
    rewrite sev_get_count by (simpl; tauto).
    change 1 with (inject_Z 1). rewrite <- Zle_Qle. lia. }
  pose proof (severity_penalty_score_bounds (count_severities md_text)) as [Hl _].
  assert (E : inject_Z 830 / 10 == 83) by reflexivity.
  assert (H : final_score_of md_text <= 83).
  { unfold final_score_of, combine_scores.
    destruct (grade_cases md_text) as [-> | [Hg1 Hg2]]; rewrite <- E.
    - simpl. apply py_round1_le; lra.
    - destruct (Qlt_le_dec (extract_self_grade_score md_text) 0); [lra|].
      apply py_round1_le; lra. }
  split; [exact H|]. rewrite badgeColor_ok. lra.
Qed.

Lemma critical_never_ok_witness :
  (0 < occurrences (str "critical") (str "One critical issue. Grade: A"))%nat /\
  badgeColor (final_score_of (str "One critical issue. Grade: A")) <> ok.
Proof.
  assert (H : (0 < occurrences (str "critical") (str "One critical issue. Grade: A"))%nat)
    by (vm_compute; lia).
  split; [exact H|].
  exact (proj2 (critical_never_ok (str "One critical issue. Grade: A") H)).
Defined.

(** ** Rounding a score to a whole number *)








(** X5. The combiner of the scanner and the combiner of the dashboard agree
    on every severity score that the penalty rule returns, with any
    self-grade of the table or none; without a self-grade the scanner's
    returns the severity score untouched, whatever it is. *)
Theorem combiners_agree (sev : gmap string nat) (s : Q) :
  Forall (fun g => _combine_scores g (_severity_penalty_score sev)
                   == combine_scores g (severity_penalty_score sev))
         [-1; 40; 60; 75; 85; 95] /\
  _combine_scores (-1) s = s.
Proof.
  split; [|reflexivity].
  destruct (severity_penalty_score_whole sev) as [a Ha].
  assert (E : py_round1 (severity_penalty_score sev) == severity_penalty_score sev).
  { apply (py_round1_tenths _ (a * 10)). rewrite Ha, inject_Z_mult. field. }
  change (_severity_penalty_score sev) with (severity_penalty_score sev).
  repeat constructor; unfold _combine_scores, combine_scores; simpl;
    first [ symmetry; exact E | reflexivity ].
Qed.

(** ** The self-grade of the scanner and of the dashboard *)

Lemma matches_text r s s' : matches r s s' -> text_of s' = text_of s.
Proof.
  induction 1; try reflexivity; try assumption.
  - unfold text_of. simpl. rewrite <- app_assoc. reflexivity.
  - congruence.
  - rewrite IHmatches. unfold text_of. simpl. rewrite <- app_assoc. reflexivity.
Qed.

(** A pattern without groups matches whatever the groups are, and leaves
    them alone. *)
Lemma matches_regroup r s s' :
  matches r s s' -> group_free r = true ->
  forall h, matches r (regroup h s) (regroup h s').
Proof.
  induction 1; simpl; intros F h; try discriminate;
    try (apply andb_prop in F as [F1 F2]).
  - constructor.
  - apply M_Chr. assumption.
  - econstructor; eauto.
  - apply M_AltL; auto.
  - apply M_AltR; auto.
  - apply M_OptYes; auto.
  - apply M_OptNo.
  - apply M_StarNil.
  - apply (M_StarCons p c b a h); [assumption|]. apply (IHmatches eq_refl h).
  - apply M_Bound. assumption.
  - apply M_Bol. assumption.
  - apply M_Eol. assumption.
Qed.

Lemma lit_ci_group_free w : group_free (lit_ci w) = true.
Proof. induction w as [|x w IH]; simpl; [reflexivity | exact IH]. Qed.

Lemma position_of_text (t : chars) (s : mstate) :
  text_of s = t ->
  (length (before s) <= length t)%nat /\
  regroup [] s = MState (rev (take (length (before s)) t))
                        (drop (length (before s)) t) [].
Proof.
  unfold text_of, regroup. intros <-. split.
  - rewrite length_app, length_rev. lia.
  - rewrite <- (length_rev (before s)).
    rewrite take_app_length, drop_app_length, rev_involutive. reflexivity.
Qed.

Section Keyword.
Variables (S G : regex) (D sp sep L : ascii -> bool).
Hypothesis G_free : group_free G = true.

Lemma keyword_tail s0 s1 :
  matches (Alt (Cat S (Cat (Opt (Chr D)) G)) G) s0 s1 ->
  exists v, matches G v s1 /\ text_of v = text_of s0.
Proof.
  intros H. invert H.
  - match goal with H : matches (Cat S _) _ _ |- _ => invert H end.
    match goal with H : matches (Cat (Opt _) _) _ _ |- _ => invert H end.
    match goal with
    | Hs : matches S s0 ?u, Ho : matches (Opt _) ?u ?v, Hg : matches G ?v s1 |- _ =>
        exists v; split; [exact Hg|];
        rewrite (matches_text _ _ _ Ho); exact (matches_text _ _ _ Hs)
    end.
  - exists s0. split; [assumption | reflexivity].
Qed.

(** Where the pattern of the dashboard matches, the pattern of the
    scanner matches from the start of the word. *)
Lemma graded_then_scanned s0 m :
  matches
    (Cat Bound
      (Cat (Group 1 (Alt (Cat S (Cat (Opt (Chr D)) G)) G))
        (Cat (Star sp)
          (Cat (Chr sep)
            (Cat (Star sp)
              (Cat (Group 2 (Chr L)) Bound)))))) s0 m ->
  exists v m',
    text_of v = text_of s0 /\
    matches
      (Cat G (Cat (Star sp) (Cat (Chr sep) (Cat (Star sp) (Group 1 (Chr L))))))
      (regroup [] v) m'.
Proof.
  intros H.
  repeat match goal with
  | H : matches (Cat _ _) _ _ |- _ => invert H
  | H : matches Bound _ _ |- _ => invert H
  | H : matches (Group _ _) _ _ |- _ => invert H
  end.
  match goal with
  | H : matches (Alt _ _) _ _ |- _ =>
      destruct (keyword_tail _ _ H) as (v & Hg & Ht)
  end.
  exists v. eexists. split; [exact Ht|].
  repeat match goal with
  | H : matches (Star _) ?s _ |- _ =>
      lazymatch s with
      | regroup _ _ => fail
      | _ => apply matches_regroup with (h := []) in H; [|reflexivity]
      end
  | H : matches (Chr _) ?s _ |- _ =>
      lazymatch s with
      | regroup _ _ => fail
      | _ => apply matches_regroup with (h := []) in H; [|reflexivity]
      end
  end.
  apply matches_regroup with (h := []) in Hg; [|exact G_free].
  unfold regroup, set_group in *. simpl in *.
  eapply M_Cat; [exact Hg|].
  eapply M_Cat; [eassumption|].
  eapply M_Cat; [eassumption|].
  eapply M_Cat; [eassumption|].
  apply M_Group. eassumption.
Qed.
End Keyword.

Lemma grade_found_scanner_found (md_text : chars) :
  found grade_re md_text -> found scanner_grade_re md_text.
Proof.
  intros (i & m & Hi & Hm).
  destruct (graded_then_scanned _ _ _ _ _ _ (lit_ci_group_free (str "grade")) _ _ Hm)
    as (v & m' & Ht & Hs).
  assert (Hv : text_of v = md_text).
  { rewrite Ht. unfold text_of. simpl. rewrite rev_involutive. apply take_drop. }
  destruct (position_of_text _ _ Hv) as [Hl E].
  exists (length (before v)), m'. split; [exact Hl|].
  rewrite <- E. exact Hs.
Qed.

Lemma scanner_grade_re_letter s m :
  matches scanner_grade_re s m ->
  exists l, group 1 m = Some [l] /\ ci_set "ABCDEF" l = true.
Proof.
  unfold scanner_grade_re. intros H.
  repeat match goal with
  | H : matches (Cat _ _) _ _ |- _ => invert H
  | H : matches (Group _ _) _ _ |- _ => invert H
  | H : matches (Chr (ci_set _)) _ _ |- _ => invert H
  end.
  match goal with Hl : ci_set _ ?c = true |- _ => exists c; split; [|exact Hl] end.
  unfold group, set_group. simpl. rewrite consumed_one. reflexivity.
Qed.

Lemma scanner_extract_cases (md_text : chars) :
  (re_search scanner_grade_re md_text = None /\ _extract_self_grade md_text = -1) \/
  (found scanner_grade_re md_text /\
   In (_extract_self_grade md_text) [40; 60; 75; 85; 95]).
Proof.
  unfold _extract_self_grade.
  destruct (re_search scanner_grade_re md_text) as [m|] eqn:E; [right | left; auto].
  destruct (re_search_some _ _ _ E) as (i & Hm & _).
  destruct (scanner_grade_re_letter _ _ (proj2 Hm)) as (l & Hg & Hl).
  destruct (mapping_letter l Hl) as [Hget Hin].
  split; [exists i, m; exact Hm|].
  rewrite Hg. change (default [] (Some [l])) with [l].
  rewrite Hget. exact Hin.
Qed.

(** X6. Whenever the dashboard reads a self-grade in a report, the scanner
    reads one in it too, and scores it by the same table. *)
Theorem scanner_reads_dashboard_grade (md_text : chars) :
  extract_self_grade_score md_text <> -1 ->
  In (_extract_self_grade md_text) [40; 60; 75; 85; 95].
Proof.
  intros H.
  assert (F : found grade_re md_text).
  { destruct (re_search grade_re md_text) as [m|] eqn:E.
    - destruct (re_search_some _ _ _ E) as (i & Hm & _). exists i, m. exact Hm.
    - exfalso. apply H. unfold extract_self_grade_score. rewrite E. reflexivity. }
  apply grade_found_scanner_found in F.
  destruct (scanner_extract_cases md_text) as [[E _]|[_ Hin]]; [|exact Hin].
  apply re_search_none in E. contradiction.
Qed.

Lemma scanner_reads_dashboard_grade_witness :
  extract_self_grade_score (str "Self-Grade: b+") <> -1 /\
  In (_extract_self_grade (str "Self-Grade: b+")) [40; 60; 75; 85; 95].
Proof.
  assert (H : extract_self_grade_score (str "Self-Grade: b+") <> -1)
    by (vm_compute; discriminate).
  split; [exact H|].
  exact (scanner_reads_dashboard_grade (str "Self-Grade: b+") H).
Defined.

(** The converse fails: the scanner does not ask for word boundaries. *)
Example scanner_reads_more :
  extract_self_grade_score (str "Grade: Excellent") = -1 /\
  _extract_self_grade (str "Grade: Excellent") = 40 /\
  extract_self_grade_score (str "my upgrade: b, grade - c") = 75 /\
  _extract_self_grade (str "my upgrade: b, grade - c") = 85.
Proof. repeat split; vm_compute; reflexivity. Qed.

Lemma scanner_combine_bounds (g s : Q) :
  1 <= s <= 100 -> g < 0 \/ 1 <= g <= 100 ->
  1 <= _combine_scores g s <= 100.
Proof.
  intros Hs Hg. unfold _combine_scores.
  destruct (Qlt_le_dec g 0); [exact Hs|].
  apply py_round1_bounds. lra.
Qed.

(** X7. The score that the scanner computes for a text lies between 1 and
    100, and so does the whole number on its badge; its severity counts and
    its severity score are those of the dashboard for the same text. *)
Theorem compute_security_score_spec (md_text : chars) :
  1 <= score_final (compute_security_score md_text) <= 100 /\
  (1 <= shown_score (score_final (compute_security_score md_text)) <= 100)%Z /\
  score_counts (compute_security_score md_text) = count_severities md_text /\
  score_severity (compute_security_score md_text)
    = severity_penalty_score (count_severities md_text).
Proof.
  assert (B : 1 <= score_final (compute_security_score md_text) <= 100).
  { unfold compute_security_score. simpl. apply scanner_combine_bounds.
    - apply (severity_penalty_score_bounds (count_severities md_text)).
    - destruct (scanner_extract_cases md_text) as [[_ ->]|[_ Hin]];
        [left; reflexivity|].
      simpl in Hin. destruct Hin as [<-|[<-|[<-|[<-|[<-|[]]]]]];
        right; split; apply Qle_bool_imp_le; reflexivity. }
  split; [exact B|]. split; [|split; reflexivity].
  unfold shown_score. apply round_half_even_bounds.
  change (inject_Z 1) with 1. change (inject_Z 100) with 100. exact B.
Qed.

(** ** The records and the first view of the page *)

Lemma load_reports_Forall (P : ReportItem -> Prop) disk markdown files :
  (forall p md, read_text disk p = Some md -> P (load_one disk markdown p md)) ->
  Forall P (load_reports disk markdown files).
Proof.
  intros H. rewrite load_reports_omap. generalize (sorted files) as l.
  induction l as [|p l IH]; [constructor|].
  change (omap (record_of disk markdown) (p :: l))
    with (match record_of disk markdown p with
          | Some y => y :: omap (record_of disk markdown) l
          | None => omap (record_of disk markdown) l
          end).
  unfold record_of at 1. destruct (read_text disk p) as [md|] eqn:E; simpl.
  - constructor; [apply H; exact E | exact IH].
  - exact IH.
Qed.

(** X8. Every record of the loader is consistent with the text it keeps:
    its counts, its two part scores and its final score are those of that
    text, and the final score lies between 1 and 100. *)
Theorem load_reports_records (disk : FileSystem) (markdown : renderer)
    (files : list Path) :
  Forall (fun it =>
            severity it = count_severities (text it) /\
            severity_score it = severity_penalty_score (severity it) /\
            self_grade_score it = extract_self_grade_score (text it) /\
            final_score it = combine_scores (self_grade_score it) (severity_score it) /\
            1 <= final_score it <= 100)
         (load_reports disk markdown files).
Proof.
  apply load_reports_Forall. intros p md _. simpl.
  repeat (split; [reflexivity|]).
  apply combine_scores_bounds.
  - apply severity_penalty_score_bounds.
  - destruct (grade_cases md) as [->|[H1 H2]]; [left; reflexivity | right; lra].
Qed.

Lemma includes_empty (s : chars) : includes s [] = true.
Proof. destruct s; reflexivity. Qed.

Lemma filter_all {A} (f : A -> bool) (l : list A) :
  Forall (fun x => f x = true) l -> List.filter f l = l.
Proof.
  induction 1 as [|x l Hx _ IH]; [reflexivity|].
  simpl. rewrite Hx, IH. reflexivity.
Qed.

Lemma js_round_ge_1 (x : Q) : 1 <= x -> (1 <= js_round x)%Z.
Proof.
  intros H. unfold js_round.
  assert (L : (Qfloor 1 <= Qfloor (x + (1 # 2)))%Z) by (apply Qfloor_resp_le; lra).
  exact L.
Qed.

(** X9. With the controls as the page first shows them (no query, the
    slider at 1, no level selected), the list holds every report that was
    loaded, in the loader's order before sorting. *)
Theorem renderList_first_view (disk : FileSystem) (markdown : renderer)
    (files : list Path) :
  renderList_filter (load_reports disk markdown files) [] 1 []
    = load_reports disk markdown files /\
  renderList_by_score (load_reports disk markdown files) [] 1 []
    ≡ₚ load_reports disk markdown files.
Proof.
  assert (E : renderList_filter (load_reports disk markdown files) [] 1 []
              = load_reports disk markdown files).
  { unfold renderList_filter. rewrite filter_twice. apply filter_all.
    eapply Forall_impl; [apply load_reports_records|].
    intros it (_ & _ & _ & _ & H1 & _). apply andb_true_intro. split.
    - unfold text_pred. simpl. rewrite includes_empty. reflexivity.
    - unfold score_pred. apply Z.leb_le. apply js_round_ge_1. exact H1. }
  split; [exact E|].
  unfold renderList_by_score, js_sort. rewrite sort_by_Permutation, E. reflexivity.
Qed.

(** ** The fallback rendering is inert *)

Lemma escape_char_inert (c : ascii) :
  Forall (fun e => e <> "<"%char /\ e <> ">"%char) (escape_char c).
Proof.
  unfold escape_char.
  destruct (Ascii.eqb_spec c "&"); [repeat constructor; discriminate|].
  destruct (Ascii.eqb_spec c "<"); [repeat constructor; discriminate|].
  destruct (Ascii.eqb_spec c ">"); [repeat constructor; discriminate|].
  repeat constructor; assumption.
Qed.

Lemma html_escape_inert (s : chars) :
  Forall (fun e => e <> "<"%char /\ e <> ">"%char) (html_escape s).
Proof.
  unfold html_escape. induction s as [|c s IH]; [constructor|].
  simpl. apply Forall_app. split; [apply escape_char_inert | exact IH].
Qed.

(** X10. When the renderer is missing or raises, the body of the report is
    shown between [<pre>] and [</pre>] and holds neither [<] nor [>]: no
    markup of the report reaches the page. *)
Theorem render_markdown_inert (markdown : renderer) (md_text : chars) :
  renderer_fails markdown md_text ->
  exists body,
    render_markdown markdown md_text = str "<pre>" ++ body ++ str "</pre>" /\
    Forall (fun e => e <> "<"%char /\ e <> ">"%char) body.
Proof.
  intros H. exists (html_escape md_text). split; [|apply html_escape_inert].
  unfold render_markdown. rewrite replace_chain_escape.
  destruct markdown as [render|]; [|reflexivity].
  simpl in H. rewrite H. reflexivity.
Qed.

Lemma render_markdown_inert_witness :
  renderer_fails None (str "<script>x</script>") /\
  exists body,
    render_markdown None (str "<script>x</script>")
      = str "<pre>" ++ body ++ str "</pre>" /\
    Forall (fun e => e <> "<"%char /\ e <> ">"%char) body.
Proof.
  split; [exact I|].
  exact (render_markdown_inert None (str "<script>x</script>") I).
Defined.
